(** * Portfolio site script (script.js): a shallow embedding and its properties

    The script is a set of independent widgets that communicate with the page
    only by adding and removing class tokens on elements, by writing
    [document.body.style.overflow], by asking the window to scroll and by
    setting timers.  The embedding keeps that shape:

    - the mutable part of the document is one shared store [page], indexed by
      node identity, so that two widget fields that point at the same element
      really alias;
    - what the browser supplies ([querySelector], [getAttribute], [offsetTop],
      [window.scrollY], the entries handed to an observer callback) comes in
      as arguments or as [Section] variables;
    - code that can raise returns a [completion];
    - a timer gets the delay the host keeps for it, and runs only while no
      task is running;
    - the file as a whole is loaded on a host that may lack a global:
      [Script.load] runs its statements in order. *)

From Stdlib Require Import ZArith QArith Qcanon.
From stdpp Require Import base option numbers gmap strings list fin_maps fin_sets.

Open Scope string_scope.
Open Scope list_scope.
Open Scope nat_scope.
Open Scope stdpp_scope.

(** ** The document *)

(** A node is known by its identity; [NodeList]s are lists of nodes. *)
Abbreviation node := nat.

Module DOM.

(** [classes] holds every element's [classList]; an element that was never
    written has the empty token set.  [overflow] is
    [document.body.style.overflow]. *)
Record page := Page {
  classes : gmap node (gset string);
  overflow : string
}.

Definition classList (p : page) (e : node) : gset string :=
  default ∅ (classes p !! e).

Definition set_classList (e : node) (cs : gset string) (p : page) : page :=
  {| classes := <[e := cs]> (classes p); overflow := overflow p |}.

Definition set_overflow (v : string) (p : page) : page :=
  {| classes := classes p; overflow := v |}.

(** [e.classList.contains(c)] *)
Definition contains (e : node) (c : string) (p : page) : bool :=
  bool_decide (c ∈ classList p e).

(** [e.classList.add(c)] *)
Definition add (e : node) (c : string) (p : page) : page :=
  set_classList e ({[c]} ∪ classList p e) p.

(** [e.classList.remove(c)] *)
Definition remove (e : node) (c : string) (p : page) : page :=
  set_classList e (classList p e ∖ {[c]}) p.

(** [e.classList.toggle(c)] *)
Definition toggle (e : node) (c : string) (p : page) : page :=
  if contains e c p then remove e c p else add e c p.

(** The elements that carry token [c], as a predicate and among a list. *)
Definition marked (c : string) (p : page) (e : node) : Prop :=
  c ∈ classList p e.

Global Instance marked_dec c p e : Decision (marked c p e).
Proof. unfold marked. apply _. Defined.

End DOM.

Import DOM.

(** ** Script code: state, and a call that returns or throws *)

Inductive exn := TypeError | SyntaxError | ReferenceError.

Inductive completion (A : Type) :=
| Return (a : A)
| Throw (e : exn).
Arguments Return {A} a.
Arguments Throw {A} e.

(** A piece of script run on a store [S]: what was written before a throw
    stays written. *)
Definition js (S A : Type) : Type := S → completion A * S.

Global Instance js_ret {S} : MRet (js S) := λ A a s, (Return a, s).
Global Instance js_bind {S} : MBind (js S) := λ A B k m s,
  match m s with
  | (Return a, s') => k a s'
  | (Throw e, s') => (Throw e, s')
  end.

Definition throw {S A} (e : exn) : js S A := λ s, (Throw e, s).
Definition modify {S} (f : S → S) : js S unit := λ s, (Return tt, f s).
Definition gets {S A} (f : S → A) : js S A := λ s, (Return (f s), s).

(** Member access through a reference that may be [null]. *)
Definition deref {S A} (r : option A) : js S A :=
  match r with
  | Some a => mret a
  | None => throw TypeError
  end.

(** [list.forEach(f)]: a throw leaves the loop. *)
Fixpoint forEach {S A} (f : A → js S unit) (l : list A) : js S unit :=
  match l with
  | [] => mret tt
  | x :: l => f x;; forEach f l
  end.

(** JavaScript truthiness of an object reference and of a string. *)
Definition truthy_ref {A} (r : option A) : bool :=
  match r with Some _ => true | None => false end.
Definition truthy_str (s : option string) : bool :=
  match s with
  | Some s => negb (bool_decide (s = ""))
  | None => false
  end.

(** ** Events and listeners

    A dispatched event carries its propagation path: the target first, then
    its ancestors; the document and the window come after the path.
    [n.contains(e.target)] reads "[n] is on the path". *)

Module Events.

Inductive target := OnNode (e : node) | OnDocument | OnWindow.

Global Instance target_eq_dec : EqDecision target.
Proof. solve_decision. Defined.

Inductive event :=
| Click (path : list node)
| Keydown (key : string) (path : list node)
| Scroll
| Resize
| Load.

Definition type_of (ev : event) : string :=
  match ev with
  | Click _ => "click"
  | Keydown _ _ => "keydown"
  | Scroll => "scroll"
  | Resize => "resize"
  | Load => "load"
  end.

(** The targets an event visits while it bubbles, in order. *)
Definition propagation (ev : event) : list target :=
  match ev with
  | Click path | Keydown _ path => (OnNode <$> path) ++ [OnDocument; OnWindow]
  | Scroll => [OnDocument; OnWindow]
  | Resize | Load => [OnWindow]
  end.

Definition path_of (ev : event) : list node :=
  match ev with
  | Click path | Keydown _ path => path
  | _ => []
  end.

(** [n.contains(e.target)] *)
Definition contains_target (n : node) (ev : event) : bool :=
  bool_decide (n ∈ path_of ev).

(** [on.addEventListener(type, handler)], as the browser records it. *)
Record registration (H : Type) := Reg { on : target; type : string; handler : H }.
Arguments Reg {H} on type handler.
Arguments on {H} r.
Arguments type {H} r.
Arguments handler {H} r.

(** The listeners an event reaches, in the order they are called: target
    by target along the propagation, and in registration order on each. *)
Definition listeners_at {H} (regs : list (registration H)) (ty : string)
    (tg : target) : list H :=
  handler <$> filter (λ r, on r = tg ∧ type r = ty) regs.

Definition listeners_for {H} (regs : list (registration H)) (ev : event) : list H :=
  propagation ev ≫= listeners_at regs (type_of ev).

(** The browser calls each listener; what one of them throws is reported
    and the next ones still run. *)
Definition call_all {H S} (call : H → js S unit) (hs : list H) (s : S) : S :=
  foldl (λ s h, snd (call h s)) s hs.

End Events.

Import Events.

(** ** debounce (script.js 13-23)

    The timer table is the browser's: [setTimeout] files a timer under a
    fresh handle, [clearTimeout] drops the timer filed under a handle and
    ignores a handle that names nothing (among them [undefined]).  Every
    timer of this table is a [later] closure of one debounced function, so a
    timer stores what tells such closures apart: the arguments of the call
    that created it.  Time counts milliseconds. *)

Module Debounce.

(** The delay a timer gets.  The browser's [setTimeout(handler, timeout)]
    takes [timeout] as a signed 32-bit integer: the number is reduced
    modulo 2^32 into the range from -2^31 to 2^31 - 1, and a negative delay
    counts as 0.  So a [wait] below 2^31 is kept as it is, and one from
    2^31 to 2^32 - 1 gives a timer that is due at once.  (Node.js replaces
    a delay beyond 2^31 - 1 by 1 ms: there too the timer no longer waits
    [wait].) *)
Definition ToInt32 (n : Z) : Z :=
  let m := (n mod 2 ^ 32)%Z in
  if decide (m < 2 ^ 31)%Z then m else (m - 2 ^ 32)%Z.

Definition timer_delay (wait : nat) : nat :=
  Z.to_nat (Z.max 0 (ToInt32 (Z.of_nat wait))).

Section debounce.
Context {A U : Type}.       (* the argument tuple [...args]; what [func] acts on *)
Variable func : A → U → U.  (* the wrapped callback *)

Record timer := Timer { handle : nat; due : nat; targs : A }.

Record world := World {
  now : nat;                  (* the clock *)
  next_handle : nat;          (* the handle the next setTimeout returns *)
  pending : list timer;       (* active timers, oldest first *)
  timeout : option nat;       (* the closure variable [let timeout] *)
  user : U;                   (* the state [func] reads and writes *)
  calls : list (nat * A)      (* trace: every [func(...args)] with its time *)
}.

(** The wrapper was just created: [timeout] is undefined, nothing pending. *)
Definition fresh (t0 h0 : nat) (u : U) : world :=
  {| now := t0; next_handle := h0; pending := []; timeout := None;
     user := u; calls := [] |}.

Definition set_pending (ts : list timer) (w : world) : world :=
  {| now := now w; next_handle := next_handle w; pending := ts;
     timeout := timeout w; user := user w; calls := calls w |}.

Definition set_user (u : U) (w : world) : world :=
  {| now := now w; next_handle := next_handle w; pending := pending w;
     timeout := timeout w; user := u; calls := calls w |}.

Definition clearTimeout (h : option nat) (w : world) : world :=
  match h with
  | None => w
  | Some h => set_pending (filter (λ t, handle t ≠ h) (pending w)) w
  end.

Definition setTimeout (args : A) (wait : nat) (w : world) : nat * world :=
  (next_handle w,
   {| now := now w; next_handle := S (next_handle w);
      pending := pending w ++ [Timer (next_handle w) (now w + timer_delay wait) args];
      timeout := timeout w; user := user w; calls := calls w |}).

(** [func(...args)], traced. *)
Definition call_func (args : A) (w : world) : world :=
  {| now := now w; next_handle := next_handle w; pending := pending w;
     timeout := timeout w; user := func args (user w);
     calls := calls w ++ [(now w, args)] |}.

(** [const later = () => { clearTimeout(timeout); func(...args); }] *)
Definition later (args : A) (w : world) : world :=
  call_func args (clearTimeout (timeout w) w).

(** [wait = 20] when the caller passes none. *)
Definition wait_or_default (wait : option nat) : nat := default 20 wait.

(** [executedFunction(...args)] *)
Definition executedFunction (wait : nat) (args : A) (w : world) : world :=
  let w1 := clearTimeout (timeout w) w in
  let '(h, w2) := setTimeout args wait w1 in
  {| now := now w2; next_handle := next_handle w2; pending := pending w2;
     timeout := Some h; user := user w2; calls := calls w2 |}.

(** *** The event loop around it *)

Definition is_pending (h : nat) (w : world) : bool :=
  bool_decide (h ∈ handle <$> pending w).

(** Run one timer: it leaves the table, then its callback runs. *)
Definition fire (t : timer) (w : world) : world :=
  later (targs t) (set_pending (filter (λ t', handle t' ≠ handle t) (pending w)) w).

(** Run, oldest first, the timers of [ts] that are still active when their
    turn comes (a callback may have cleared a later one). *)
Fixpoint run_timers (ts : list timer) (w : world) : world :=
  match ts with
  | [] => w
  | t :: ts =>
      run_timers ts (if is_pending (handle t) w then fire t w else w)
  end.

(** Everything that is due at the current time runs. *)
Definition settle (w : world) : world :=
  run_timers (filter (λ t, due t ≤ now w) (pending w)) w.

Definition tick (w : world) : world :=
  settle {| now := S (now w); next_handle := next_handle w;
            pending := pending w; timeout := timeout w;
            user := user w; calls := calls w |}.

(** [d] milliseconds pass with no call of the wrapper. *)
Definition advance (d : nat) (w : world) : world :=
  Nat.iter d tick (settle w).

(** A burst: each call of the wrapper comes [gap] after the one before,
    from a task of its own (an event listener, as the scroll listener of
    ScrollHeader), and the event loop is free in between: a timer that
    comes due between two calls runs before the second. *)
Definition burst (wait : nat) (more : list (nat * A)) (w : world) : world :=
  foldl (λ w '(gap, args), executedFunction wait args (advance gap w)) w more.


(** One timer is pending, set by a call at time [T]: it is due [wait]
    later, carries the arguments [a] of that call, and [timeout] holds
    its handle. *)
Definition armed (wait T : nat) (a : A) (w : world) : Prop :=
  now w = T ∧ ∃ h, pending w = [Timer h (T + wait) a] ∧ timeout w = Some h.

Definition set_now (n : nat) (w : world) : world :=
  {| now := n; next_handle := next_handle w; pending := pending w;
     timeout := timeout w; user := user w; calls := calls w |}.

(** *** Calls within one task

    No timer runs while a task is running.  What happens around a wrapper,
    piece by piece: the running task calls it; the running task goes on
    for [d] milliseconds; the event loop is free for [d] milliseconds and
    runs the timers as they come due (those that are overdue first). *)
Inductive phase :=
| Call (args : A)
| Busy (d : nat)
| Idle (d : nat).

Definition during (wait : nat) (w : world) (ph : phase) : world :=
  match ph with
  | Call args => executedFunction wait args w
  | Busy d => set_now (now w + d) w
  | Idle d => advance d w
  end.

Definition play (wait : nat) (phases : list phase) (w : world) : world :=
  foldl (during wait) w phases.

(** A burst, phase by phase; and the same calls made by one task that
    runs all the while. *)
Definition burst_phases (more : list (nat * A)) : list phase :=
  more ≫= λ '(gap, args), [Idle gap; Call args].


(** The state of the timer table: nothing pending, or the timer of the
    latest call, with its due time. *)
Definition awaits (waiting : option (nat * A)) (w : world) : Prop :=
  match waiting with
  | None => pending w = []
  | Some (due, a) => ∃ h, pending w = [Timer h due a] ∧ timeout w = Some h
  end.

End debounce.
Arguments timer : clear implicits.
Arguments world : clear implicits.
Arguments phase : clear implicits.
(** *** What a schedule must run

    [waiting] is the call that has not run and was not replaced: the time
    from which its timer is due, and its arguments.  A call replaces it; a
    stretch in which the event loop is free runs it if it is due by the
    end of the stretch, at its due time or, when that has passed, at the
    start of the stretch. *)
Section schedule.
Context {A : Type}.

Fixpoint runs (delay T : nat) (waiting : option (nat * A))
    (phases : list (phase A)) : list (nat * A) :=
  match phases with
  | [] => []
  | Call a :: phases => runs delay T (Some (T + delay, a)) phases
  | Busy d :: phases => runs delay (T + d) waiting phases
  | Idle d :: phases =>
      match waiting with
      | Some (due, a) =>
          if decide (due ≤ T + d)
          then (T `max` due, a) :: runs delay (T + d) None phases
          else runs delay (T + d) waiting phases
      | None => runs delay (T + d) None phases
      end
  end.

Definition called (phases : list (phase A)) : list A :=
  phases ≫= λ ph, match ph with Call a => [a] | _ => [] end.

Definition duration (phases : list (phase A)) : nat :=
  sum_list ((λ ph, match ph with Call _ => 0 | Busy d | Idle d => d end) <$> phases).

End schedule.

End Debounce.

(** ** MobileMenu (script.js 29-75) *)

Module MobileMenu.

(** The fields the constructor fills: [$] gives an element or [null],
    [$$] a (possibly empty) node list. *)
Record widget := Widget {
  toggle : option node;
  menu : option node;
  menuItems : list node
}.

Definition toggleMenu (w : widget) : js page unit :=
  t ← deref (toggle w);
  modify (DOM.toggle t "active");;
  m ← deref (menu w);
  modify (DOM.toggle m "active");;
  m ← deref (menu w);
  active ← gets (contains m "active");
  modify (set_overflow (if active : bool then "hidden" else "")).

Definition closeMenu (w : widget) : js page unit :=
  t ← deref (toggle w);
  modify (remove t "active");;
  m ← deref (menu w);
  modify (remove m "active");;
  modify (set_overflow "").

(** The four closures [init] hands to [addEventListener]. *)
Inductive listener :=
| toggle_click
| item_click
| document_click
| document_keydown.

Definition init (w : widget) : js (list (registration listener)) unit :=
  if negb (truthy_ref (toggle w)) || negb (truthy_ref (menu w)) then mret tt
  else
    t ← deref (toggle w);
    modify (λ regs, regs ++ [Reg (OnNode t) "click" toggle_click]);;
    modify (λ regs, regs ++ ((λ item, Reg (OnNode item) "click" item_click) <$> menuItems w));;
    modify (λ regs, regs ++ [Reg OnDocument "click" document_click]);;
    modify (λ regs, regs ++ [Reg OnDocument "keydown" document_keydown]).

Definition call (w : widget) (ev : event) (l : listener) : js page unit :=
  match l with
  | toggle_click => toggleMenu w
  | item_click => closeMenu w
  | document_click =>
      m ← deref (menu w);
      if negb (contains_target m ev) then
        t ← deref (toggle w);
        if negb (contains_target t ev) then closeMenu w else mret tt
      else mret tt
  | document_keydown =>
      match ev with
      | Keydown key _ => if bool_decide (key = "Escape") then closeMenu w else mret tt
      | _ => mret tt
      end
  end.

(** The listeners [new MobileMenu()] leaves behind on an empty table. *)
Definition registered (w : widget) : list (registration listener) :=
  snd (init w []).

(** The browser dispatches [ev]. *)
Definition dispatch (w : widget) (ev : event) (p : page) : page :=
  call_all (call w ev) (listeners_for (registered w) ev) p.

Definition run (w : widget) (evs : list event) (p : page) : page :=
  foldl (λ p ev, dispatch w ev p) p evs.

(** What the widget calls open, and the scroll lock. *)
Definition is_open (w : widget) (p : page) : bool :=
  match menu w with
  | Some m => contains m "active" p
  | None => false
  end.

Definition scroll_locked (p : page) : bool :=
  bool_decide (overflow p = "hidden").

(** The page after [toggleMenu] and after [closeMenu]; a page on which
    the menu is closed and the body free to scroll. *)
Definition opened (w : widget) (p : page) : page := snd (toggleMenu w p).
Definition closed (w : widget) (p : page) : page := snd (closeMenu w p).
Definition shut (w : widget) (p : page) : Prop :=
  is_open w p = false ∧ overflow p = "".

(** *** The state machine of the specification

    Two states, CLOSED (initial) and OPEN; a toggle click flips the state,
    a navigation-link click, an outside click and Escape close. *)
Inductive state := CLOSED | OPEN.
Inductive input := ToggleClick | LinkClick | OutsideClick | EscapeKey.

Definition machine_step (s : state) (i : input) : state :=
  match i, s with
  | ToggleClick, CLOSED => OPEN
  | ToggleClick, OPEN => CLOSED
  | (LinkClick | OutsideClick | EscapeKey), _ => CLOSED
  end.

Definition machine_run (s : state) (inputs : list input) : state :=
  foldl machine_step s inputs.

Definition state_of (w : widget) (p : page) : state :=
  if is_open w p then OPEN else CLOSED.

(** Which of the four inputs a dispatched event is, given where the
    widget's elements are; [None] for anything else (a click inside the
    menu beside the links, another key, a scroll). *)
Definition hits (ns : list node) (path : list node) : bool :=
  bool_decide (Exists (λ n, n ∈ path) ns).

Definition input_of (t m : node) (items : list node) (ev : event) : option input :=
  match ev with
  | Click path =>
      if bool_decide (NoDup path) then
        match bool_decide (t ∈ path), hits items path with
        | true, false => Some ToggleClick
        | false, true => Some LinkClick
        | false, false => if bool_decide (m ∈ path) then None else Some OutsideClick
        | true, true => None
        end
      else None
  | Keydown key _ => if bool_decide (key = "Escape") then Some EscapeKey else None
  | _ => None
  end.

(** The toggle control shows the state of the menu and the page is locked
    exactly while the menu is open. *)
Definition coherent (t m : node) (p : page) : Prop :=
  (marked "active" p t ↔ marked "active" p m)
  ∧ (overflow p = "hidden" ↔ marked "active" p m).

End MobileMenu.

(** ** SmoothScroll (script.js 81-107) *)

Module SmoothScroll.

(** What [document.querySelector(sel)] can do: give the first match, give
    [null], or raise a [SyntaxError] because [sel] is no selector. *)
Inductive query := Matched (e : node) | NoMatch | InvalidSelector.

Record scroll_request := ScrollTo { top : Z; behavior : string }.

(** What a click handler can do to its event and to the window. *)
Record effects := Effects {
  defaultPrevented : bool;           (* [e.preventDefault()] was called *)
  scrollTo_calls : list scroll_request
}.

Definition untouched : effects := Effects false [].

Definition preventDefault : js effects unit :=
  modify (λ fx, Effects true (scrollTo_calls fx)).

Definition scrollTo (r : scroll_request) : js effects unit :=
  modify (λ fx, Effects (defaultPrevented fx) (scrollTo_calls fx ++ [r])).

Section handler.
Variable querySelector : string → query.
Variable href_of : node → option string.   (* [getAttribute('href')] *)
Variable offsetTop : node → Z.

(** [$(selector)] *)
Definition select {S} (selector : string) : js S (option node) :=
  match querySelector selector with
  | Matched e => mret (Some e)
  | NoMatch => mret None
  | InvalidSelector => throw SyntaxError
  end.

(** The click listener of [anchor]. *)
Definition anchor_click (anchor : node) : js effects unit :=
  let href := href_of anchor in
  if negb (truthy_str href) || bool_decide (href = Some "#") then mret tt
  else
    selector ← deref href;
    target ← select selector;
    match target with
    | Some target =>
        preventDefault;;
        let offsetTop := (offsetTop target - 100)%Z in
        scrollTo {| top := offsetTop; behavior := "smooth" |}
    | None => mret tt
    end.

(** What one click on [anchor] does. *)
Definition click (anchor : node) : completion unit * effects :=
  anchor_click anchor untouched.

End handler.

(** The listener of one anchor. *)
Inductive listener := anchor_listener (anchor : node).

(** [anchors] is what [$$('a[href^="#"]')] finds. *)
Definition init (anchors : list node) : js (list (registration listener)) unit :=
  forEach (λ anchor,
    modify (λ regs, regs ++ [Reg (OnNode anchor) "click" (anchor_listener anchor)]))
    anchors.

End SmoothScroll.

(** ** ScrollHeader (script.js 113-131) *)

Module ScrollHeader.

(** [window.scrollY] is a finite double; every such number is a rational. *)
Record widget := Widget {
  header : option node;
  scrollThreshold : Qc
}.

Definition new (header : option node) : widget :=
  {| header := header; scrollThreshold := Q2Qc 100 |}.

(** The callback handed to [debounce], run with [window.scrollY = scrollY]. *)
Definition on_scroll (w : widget) (scrollY : Qc) : js page unit :=
  if bool_decide (scrollThreshold w < scrollY)%Qc then
    h ← deref (header w);
    modify (add h "scrolled")
  else
    h ← deref (header w);
    modify (remove h "scrolled").

(** [debounce(callback, 10)], the listener of the window's scroll events. *)
Inductive listener := debounced_on_scroll (wait : nat).

Definition init (w : widget) : js (list (registration listener)) unit :=
  if negb (truthy_ref (header w)) then mret tt
  else modify (λ regs, regs ++ [Reg OnWindow "scroll" (debounced_on_scroll 10)]).

(** The state of the header after a tick. *)
Definition tick (w : widget) (scrollY : Qc) (p : page) : page :=
  snd (on_scroll w scrollY p).

Definition scrolled (w : widget) (p : page) : bool :=
  match header w with
  | Some h => contains h "scrolled" p
  | None => false
  end.

End ScrollHeader.

(** ** Intersection observers *)

Module Observer.

(** An [IntersectionObserverEntry], as far as the callbacks read it. *)
Record entry := Entry { isIntersecting : bool; target : node }.

Record options := Options { threshold : Qc; rootMargin : string }.

(** [new IntersectionObserver(callback, options)] followed by its
    [observe] calls. *)
Record observer := Observing { opts : options; observed : list node }.

Definition observe (e : node) : js observer unit :=
  modify (λ o, Observing (opts o) (observed o ++ [e])).

End Observer.

Import Observer.

(** ** ScrollReveal (script.js 137-165) *)

Module ScrollReveal.

(** [elements] is what [$$('.fade-in')] finds. *)
Record widget := Widget { elements : list node }.

Definition observerOptions : options :=
  {| threshold := Q2Qc 0.1; rootMargin := "0px 0px -100px 0px" |}.

(** The observer callback. *)
Definition callback (entries : list entry) : js page unit :=
  forEach (λ entry,
    if isIntersecting entry then modify (add (target entry) "visible")
    else mret tt) entries.

(** [init] leaves at most one observer behind. *)
Definition init (w : widget) : js (list observer) unit :=
  if negb (bool_decide (length (elements w) ≠ 0)) then mret tt
  else
    modify (λ os, os ++ [snd (forEach observe (elements w)
                                (Observing observerOptions []))]).

(** The elements that carry the marking. *)
Definition visible (p : page) (e : node) : Prop := marked "visible" p e.

(** Script that takes the marking from no element, even when it throws. *)
Definition keeps_visible {A} (m : js page A) : Prop :=
  ∀ p e, visible p e → visible (snd (m p)) e.

End ScrollReveal.

(** ** TypingEffect (script.js 240-282) *)

Module TypingEffect.

(** The constructor's arguments. *)
Record config := Config {
  element : option node;
  words : list string;
  typingSpeed : nat;
  deletingSpeed : nat;
  delayBetweenWords : nat
}.

(** The fields [type] writes, the text of the element, and the delays it
    hands to [setTimeout], oldest first. *)
Record state := State {
  wordIndex : nat;
  charIndex : Z;
  isDeleting : bool;
  textContent : string;
  timeouts : list nat
}.

(** The constructor's defaults. *)
Definition new (element : option node) (words : list string) : config :=
  {| element := element; words := words; typingSpeed := 100;
     deletingSpeed := 50; delayBetweenWords := 2000 |}.

(** The fields as the constructor leaves them, on an element showing [text]. *)
Definition initial (text : string) : state :=
  {| wordIndex := 0; charIndex := 0; isDeleting := false;
     textContent := text; timeouts := [] |}.

(** [word.substring(0, n)]: a negative [n] counts as 0, one past the end
    as the length. *)
Definition substring0 (n : Z) (word : string) : string :=
  String.substring 0 (Z.to_nat n) word.

Definition type (c : config) : js state unit :=
  _ ← deref (element c);
  st ← gets id;
  currentWord ← deref (words c !! wordIndex st);
  (if isDeleting st then
     modify (λ st, State (wordIndex st) (charIndex st) (isDeleting st)
                     (substring0 (charIndex st - 1) currentWord) (timeouts st));;
     modify (λ st, State (wordIndex st) (charIndex st - 1) (isDeleting st)
                     (textContent st) (timeouts st))
   else
     modify (λ st, State (wordIndex st) (charIndex st) (isDeleting st)
                     (substring0 (charIndex st + 1) currentWord) (timeouts st));;
     modify (λ st, State (wordIndex st) (charIndex st + 1) (isDeleting st)
                     (textContent st) (timeouts st)));;
  st ← gets id;
  let typeSpeed := if isDeleting st then deletingSpeed c else typingSpeed c in
  typeSpeed ←
    (if negb (isDeleting st)
        && bool_decide (charIndex st = Z.of_nat (String.length currentWord)) then
       modify (λ st, State (wordIndex st) (charIndex st) true
                       (textContent st) (timeouts st));;
       mret (delayBetweenWords c)
     else if isDeleting st && bool_decide (charIndex st = 0%Z) then
       modify (λ st, State (wordIndex st) (charIndex st) false
                       (textContent st) (timeouts st));;
       modify (λ st, State ((wordIndex st + 1) `mod` length (words c))
                       (charIndex st) (isDeleting st)
                       (textContent st) (timeouts st));;
       mret 500
     else mret typeSpeed);
  modify (λ st, State (wordIndex st) (charIndex st) (isDeleting st)
                  (textContent st) (timeouts st ++ [typeSpeed])).

Definition init (c : config) : js state unit :=
  if negb (truthy_ref (element c)) then mret tt else type c.

(** While deleting, at least one character is shown; the word index stays
    inside the list. *)
Definition consistent (c : config) (st : state) : Prop :=
  wordIndex st < length (words c)
  ∧ (0 ≤ charIndex st)%Z
  ∧ (isDeleting st = true → (1 ≤ charIndex st)%Z).

(** [init], then [n] timers fire one after the other; a throw ends it. *)
Fixpoint steps (c : config) (n : nat) : js state unit :=
  match n with
  | 0 => mret tt
  | S n => type c;; steps c n
  end.

(** The element shows the first [charIndex] characters of the current
    word; while typing the word is not complete yet, while deleting it is
    not empty yet. *)
Definition showing (c : config) (st : state) : Prop :=
  ∃ word,
    words c !! wordIndex st = Some word
    ∧ textContent st = substring0 (charIndex st) word
    ∧ (0 ≤ charIndex st ≤ Z.of_nat (String.length word))%Z
    ∧ (isDeleting st = false → (charIndex st < Z.of_nat (String.length word))%Z)
    ∧ (isDeleting st = true → (1 ≤ charIndex st)%Z).

(** The state at the start of word [i]: nothing typed yet. *)
Definition at_word (i : nat) (st : state) : Prop :=
  wordIndex st = i ∧ charIndex st = 0%Z ∧ isDeleting st = false.

End TypingEffect.

(** ** ActiveSectionHighlighter (script.js 288-324) *)

Module ActiveSectionHighlighter.

(** [sections] is what [$$('section[id]')] finds, [navLinks] what
    [$$('.nav-links a[href^="#"]')] finds. *)
Record widget := Widget {
  sections : list node;
  navLinks : list node
}.

Definition observerOptions : options :=
  {| threshold := Q2Qc 0.3; rootMargin := "-100px 0px -66% 0px" |}.

Section attributes.
Variable href_of : node → option string.   (* [getAttribute('href')] *)
Variable id_of : node → string.            (* [element.id] *)

Definition setActiveLink (w : widget) (id : string) : js page unit :=
  forEach (λ link,
    modify (remove link "active");;
    if bool_decide (href_of link = Some ("#" +:+ id)) then
      modify (add link "active")
    else mret tt) (navLinks w).

(** The observer callback. *)
Definition callback (w : widget) (entries : list entry) : js page unit :=
  forEach (λ entry,
    if isIntersecting entry then setActiveLink w (id_of (target entry))
    else mret tt) entries.

(** The page after the observer delivered [batches], one callback each. *)
Definition observe_all (w : widget) (batches : list (list entry)) (p : page) : page :=
  foldl (λ p entries, snd (callback w entries p)) p batches.

(** What the loop body of [setActiveLink] does to one link. *)
Definition relabel_link (id : string) (p : page) (link : node) : page :=
  let p := remove link "active" p in
  if bool_decide (href_of link = Some ("#" +:+ id)) then add link "active" p
  else p.

(** The identifiers the callbacks pass to [setActiveLink], in order, and
    the page after one such call. *)
Definition activations (batches : list (list entry)) : list string :=
  (λ e, id_of (target e))
    <$> filter (λ e, isIntersecting e = true) (concat batches).

Definition activate (w : widget) (p : page) (id : string) : page :=
  snd (setActiveLink w id p).

(** The section that intersected most recently: the last intersecting
    entry, in delivery order. *)
Definition latest (batches : list (list entry)) : option string :=
  (λ e, id_of (target e)) <$> last (filter (λ e, isIntersecting e = true) (concat batches)).

End attributes.

Definition init (w : widget) : js (list observer) unit :=
  if negb (bool_decide (length (sections w) ≠ 0))
     || negb (bool_decide (length (navLinks w) ≠ 0)) then mret tt
  else
    modify (λ os, os ++ [snd (forEach observe (sections w)
                                (Observing observerOptions []))]).

(** The links that carry the marking, in document order. *)
Definition active_links (w : widget) (p : page) : list node :=
  filter (marked "active" p) (navLinks w).

End ActiveSectionHighlighter.

(** ** Preloader (script.js 359-377): what [init] registers *)

Module Preloader.

Record widget := Widget { preloader : option node }.

(** [() => setTimeout(..., 500)], the listener of the window's load event. *)
Inductive listener := on_load.

Definition init (w : widget) : js (list (registration listener)) unit :=
  if negb (truthy_ref (preloader w)) then mret tt
  else modify (λ regs, regs ++ [Reg OnWindow "load" on_load]).

(** *** The load listener and its two timers (script.js 368-375)

    [style] is [this.preloader.style]; a timer holds its due time and which
    of the two callbacks it runs.  Nothing clears these timers. *)
Record style := Style { opacity : string; display : string }.

Inductive task :=
| fade   (* [() => { style.opacity = '0'; setTimeout(hide, 300); }] *)
| hide.  (* [() => { style.display = 'none'; }] *)

Record world := World {
  now : nat;
  timers : list (nat * task);
  style_of : style
}.

Definition setTimeout (k : task) (delay : nat) (w : world) : world :=
  {| now := now w; timers := timers w ++ [(now w + delay, k)];
     style_of := style_of w |}.

(** The listener of the load event. *)
Definition load (w : world) : world := setTimeout fade 500 w.

Definition run_task (w : world) (k : task) : world :=
  match k with
  | fade =>
      setTimeout hide 300
        {| now := now w; timers := timers w;
           style_of := Style "0" (display (style_of w)) |}
  | hide =>
      {| now := now w; timers := timers w;
         style_of := Style (opacity (style_of w)) "none" |}
  end.

(** The timers that are due leave the table and run, oldest first.  The
    delays are positive, so a timer set by one of them is not due yet. *)
Definition settle (w : world) : world :=
  foldl run_task
    {| now := now w; timers := filter (λ t, ¬ t.1 ≤ now w) (timers w);
       style_of := style_of w |}
    (snd <$> filter (λ t, t.1 ≤ now w) (timers w)).

Definition tick (w : world) : world :=
  settle {| now := S (now w); timers := timers w; style_of := style_of w |}.

(** [ms] milliseconds pass. *)
Definition elapse (ms : nat) (w : world) : world := Nat.iter ms tick w.

End Preloader.

(** ** PerformanceMonitor (script.js 330-353) *)

Module PerformanceMonitor.

(** The window, as far as [init] asks: whether it has a
    [PerformanceObserver], and whether [observe] takes the entry types or
    raises. *)
Record window := Window {
  has_PerformanceObserver : bool;
  accepts : list string → bool
}.

(** A line of the console: the arguments of one [console.log]. *)
Inductive line (E : Type) :=
| Message (text : string)
| Labelled (label : string) (entry : E).
Arguments Message {E} text.
Arguments Labelled {E} label entry.

(** The console and the entry types under observation. *)
Record state (E : Type) := State {
  console : list (line E);
  observing : list (list string)
}.
Arguments State {E} console observing.
Arguments console {E} s.
Arguments observing {E} s.

(** [try { body } catch (e) { handler }] *)
Definition try_catch {S A} (body : js S A) (handler : exn → js S A) : js S A :=
  λ s, match body s with
       | (Throw e, s') => handler e s'
       | r => r
       end.

Section monitor.
Context {E : Type}.   (* a [PerformanceEntry] *)

Definition log (l : line E) : js (state E) unit :=
  modify (λ st, State (console st ++ [l]) (observing st)).

(** [observer.observe({ entryTypes })] *)
Definition observe (win : window) (entryTypes : list string) : js (state E) unit :=
  if accepts win entryTypes then
    modify (λ st, State (console st) (observing st ++ [entryTypes]))
  else throw TypeError.

(** The observer callback: [for (const entry of list.getEntries())]. *)
Definition callback (entries : list E) : js (state E) unit :=
  forEach (λ entry, log (Labelled "Performance entry:" entry)) entries.

Definition init (win : window) : js (state E) unit :=
  if has_PerformanceObserver win then
    try_catch (observe win ["navigation"; "paint"])
      (λ _, log (Message "PerformanceObserver not fully supported"))
  else mret tt.

End monitor.

End PerformanceMonitor.

(** ** The export surface (script.js 431-441) *)

Module Exports.

(** The classes the file declares, in file order. *)
Inductive class :=
| MobileMenu_class
| SmoothScroll_class
| ScrollHeader_class
| ScrollReveal_class
| CursorTrail_class
| TypingEffect_class
| ActiveSectionHighlighter_class
| PerformanceMonitor_class
| Preloader_class
| App_class.

Global Instance class_eq_dec : EqDecision class.
Proof. solve_decision. Defined.

Definition declared : list class :=
  [MobileMenu_class; SmoothScroll_class; ScrollHeader_class; ScrollReveal_class;
   CursorTrail_class; TypingEffect_class; ActiveSectionHighlighter_class;
   PerformanceMonitor_class; Preloader_class; App_class].

(** [C.name] *)
Definition name (c : class) : string :=
  match c with
  | MobileMenu_class => "MobileMenu"
  | SmoothScroll_class => "SmoothScroll"
  | ScrollHeader_class => "ScrollHeader"
  | ScrollReveal_class => "ScrollReveal"
  | CursorTrail_class => "CursorTrail"
  | TypingEffect_class => "TypingEffect"
  | ActiveSectionHighlighter_class => "ActiveSectionHighlighter"
  | PerformanceMonitor_class => "PerformanceMonitor"
  | Preloader_class => "Preloader"
  | App_class => "App"
  end.

(** The widgets: every class but the orchestrator. *)
Definition widgets : list class := filter (λ c, c ≠ App_class) declared.

(** An object literal: its own properties in insertion order. *)
Definition object := list (string * class).

(** The CommonJS [module] object, as far as the script touches it;
    [exports] is [None] when [module.exports] is falsy. *)
Record module_object := Module_object { exports : option object }.

(** The last statement of the file; [module] is [None] where
    [typeof module] is ['undefined']. *)
Definition export (module : option module_object) : option module_object :=
  match module with
  | Some m =>
      if truthy_ref (exports m) then
        Some {| exports := Some
          [("MobileMenu", MobileMenu_class);
           ("SmoothScroll", SmoothScroll_class);
           ("ScrollHeader", ScrollHeader_class);
           ("ScrollReveal", ScrollReveal_class);
           ("CursorTrail", CursorTrail_class);
           ("TypingEffect", TypingEffect_class);
           ("ActiveSectionHighlighter", ActiveSectionHighlighter_class)] |}
      else Some m
  | None => None
  end.

(** [obj[key]] *)
Definition get (obj : object) (key : string) : option class :=
  snd ∘ snd <$> list_find (λ kv, fst kv = key) obj.

Definition keys (obj : object) : list string := fst <$> obj.

End Exports.

(** ** App (script.js 383-425): the widgets on one page *)

Module App.

(** What the selectors of the five constructors find in the document. *)
Record document := Document {
  mobileMenu : MobileMenu.widget;
  anchors : list node;
  scrollHeader : ScrollHeader.widget;
  scrollReveal : ScrollReveal.widget;
  highlighter : ActiveSectionHighlighter.widget
}.

(** What the widgets read and write besides the timers. *)
Record store := Store { dom : page; scrollY : Qc }.

Inductive listener :=
| of_menu (l : MobileMenu.listener)
| of_anchor (l : SmoothScroll.listener)
| of_header (l : ScrollHeader.listener).

Definition relabel {H H'} (f : H → H') (regs : list (registration H)) :
    list (registration H') :=
  (λ r, Reg (on r) (type r) (f (handler r))) <$> regs.

(** [initComponents]: the listeners after the five constructors ran, in
    that order, and the observers. *)
Definition initComponents (d : document) : list (registration listener) :=
  relabel of_menu (snd (MobileMenu.init (mobileMenu d) []))
  ++ relabel of_anchor (snd (SmoothScroll.init (anchors d) []))
  ++ relabel of_header (snd (ScrollHeader.init (scrollHeader d) [])).

Definition reveal_observers (d : document) : list observer :=
  snd (ScrollReveal.init (scrollReveal d) []).

Definition section_observers (d : document) : list observer :=
  snd (ActiveSectionHighlighter.init (highlighter d) []).

Section page.
Variable querySelector : string → SmoothScroll.query.
Variable href_of : node → option string.
Variable id_of : node → string.
Variable offsetTop : node → Z.
Variable d : document.

(** The callback ScrollHeader hands to [debounce]. *)
Definition header_callback (_ : unit) (st : store) : store :=
  Store (ScrollHeader.tick (scrollHeader d) (scrollY st) (dom st)) (scrollY st).

Abbreviation world := (Debounce.world unit store).

(** Run script that acts on the document. *)
Definition on_dom (m : js page unit) : js world unit := λ w,
  let '(r, p) := m (dom (Debounce.user w)) in
  (r, Debounce.set_user (Store p (scrollY (Debounce.user w))) w).

Definition call (ev : event) (l : listener) : js world unit :=
  match l with
  | of_menu l => on_dom (MobileMenu.call (mobileMenu d) ev l)
  | of_anchor (SmoothScroll.anchor_listener a) =>
      (* acts on the event and on the viewport only *)
      λ w, (fst (SmoothScroll.click querySelector href_of offsetTop a), w)
  | of_header (ScrollHeader.debounced_on_scroll wait) =>
      modify (Debounce.executedFunction wait tt)
  end.

Definition dispatch (ev : event) (w : world) : world :=
  call_all (call ev) (listeners_for (initComponents d) ev) w.

(** What can happen to the page once it is loaded. *)
Inductive occurrence :=
  | Dispatched (ev : event)          (* the browser dispatches an event *)
  | Scrolled (y : Qc)                (* the viewport moves, then a scroll event *)
  | Elapsed (ms : nat)               (* time passes, due timers fire *)
  | Revealed (entries : list entry)  (* ScrollReveal's observer reports *)
  | Intersected (entries : list entry).  (* the section observer reports *)

Definition step (w : world) (o : occurrence) : world :=
  match o with
  | Dispatched ev => dispatch ev w
  | Scrolled y =>
      dispatch Scroll
        (Debounce.set_user (Store (dom (Debounce.user w)) y) w)
  | Elapsed ms => Debounce.advance header_callback ms w
  | Revealed entries =>
      match reveal_observers d with
      | [] => w
      | _ => snd (on_dom (ScrollReveal.callback entries) w)
      end
  | Intersected entries =>
      match section_observers d with
      | [] => w
      | _ => snd (on_dom (ActiveSectionHighlighter.callback href_of id_of
                            (highlighter d) entries) w)
      end
  end.

Definition run (os : list occurrence) (w : world) : world := foldl step w os.

(** The page as [new App()] finds it. *)
Definition loaded (p : page) (y : Qc) : world :=
  Debounce.fresh 0 1 (Store p y).

Definition visible_now (w : world) (e : node) : Prop :=
  ScrollReveal.visible (dom (Debounce.user w)) e.

End page.

End App.

(** ** The file as a whole (script.js 1-441): what loading it runs

    Loading the file evaluates the declarations of lines 10-422, which run
    nothing, then [new App()] (line 425), then the export statement (lines
    431-441).  The host supplies the globals; reading a global that is not
    defined raises a ReferenceError, and a statement that raises ends the
    load. *)

Module Script.

Inductive readyState := loading | interactive | complete.

(** The globals the load reads besides [module]: [document], given by its
    [readyState] ([None] where no [document] is defined), [window] and
    [IntersectionObserver]. *)
Record host := Host {
  document_readyState : option readyState;
  has_window : bool;
  has_IntersectionObserver : bool
}.

(** What a load leaves behind: the listeners and the observers of the
    widgets, whether [initComponents] waits for DOMContentLoaded, and the
    CommonJS [module] ([None] where [typeof module] is ['undefined']). *)
Record state := State {
  listeners : list (registration App.listener);
  reveal_observers : list observer;
  section_observers : list observer;
  deferred : bool;
  module : option Exports.module_object
}.

(** The state in which the host starts the file. *)
Definition start (module : option Exports.module_object) : state :=
  {| listeners := []; reveal_observers := []; section_observers := [];
     deferred := false; module := module |}.

(** Reading a global by its name. *)
Definition global (defined : bool) : js state unit :=
  if defined then mret tt else throw ReferenceError.

(** A constructor's [init] runs on the listener table. *)
Definition registering {H} (f : H → App.listener)
    (init : js (list (registration H)) unit) : js state unit := λ st,
  let '(r, regs) := init [] in
  (r, {| listeners := listeners st ++ App.relabel f regs;
         reveal_observers := reveal_observers st;
         section_observers := section_observers st;
         deferred := deferred st; module := module st |}).

(** An [init] that creates observers runs on the observers of its widget. *)
Definition revealing (init : js (list observer) unit) : js state unit := λ st,
  let '(r, os) := init (reveal_observers st) in
  (r, {| listeners := listeners st; reveal_observers := os;
         section_observers := section_observers st;
         deferred := deferred st; module := module st |}).

Definition highlighting (init : js (list observer) unit) : js state unit := λ st,
  let '(r, os) := init (section_observers st) in
  (r, {| listeners := listeners st; reveal_observers := reveal_observers st;
         section_observers := os;
         deferred := deferred st; module := module st |}).

Section load.
Variable h : host.
Variable d : App.document.   (* what the selectors find *)

Definition new_MobileMenu : js state unit :=
  registering App.of_menu (MobileMenu.init (App.mobileMenu d)).

Definition new_SmoothScroll : js state unit :=
  registering App.of_anchor (SmoothScroll.init (App.anchors d)).

(** Past its guard [init] reads [window]. *)
Definition new_ScrollHeader : js state unit :=
  if negb (truthy_ref (ScrollHeader.header (App.scrollHeader d))) then mret tt
  else
    global (has_window h);;
    registering App.of_header (ScrollHeader.init (App.scrollHeader d)).

(** Past its guard [init] reads [IntersectionObserver]. *)
Definition new_ScrollReveal : js state unit :=
  if negb (bool_decide (length (ScrollReveal.elements (App.scrollReveal d)) ≠ 0))
  then mret tt
  else
    global (has_IntersectionObserver h);;
    revealing (ScrollReveal.init (App.scrollReveal d)).

Definition new_ActiveSectionHighlighter : js state unit :=
  if negb (bool_decide
             (length (ActiveSectionHighlighter.sections (App.highlighter d)) ≠ 0))
     || negb (bool_decide
                (length (ActiveSectionHighlighter.navLinks (App.highlighter d)) ≠ 0))
  then mret tt
  else
    global (has_IntersectionObserver h);;
    highlighting (ActiveSectionHighlighter.init (App.highlighter d)).

(** [App.initComponents] (lines 397-421); the [console.log] that ends it
    writes to the console only. *)
Definition initComponents : js state unit :=
  new_MobileMenu;;
  new_SmoothScroll;;
  new_ScrollHeader;;
  new_ScrollReveal;;
  new_ActiveSectionHighlighter.

(** [new App()]: the constructor calls [init] (lines 388-395), which reads
    [document.readyState]. *)
Definition new_App : js state unit :=
  match document_readyState h with
  | None => throw ReferenceError
  | Some loading =>
      modify (λ st,
        {| listeners := listeners st; reveal_observers := reveal_observers st;
           section_observers := section_observers st;
           deferred := true; module := module st |})
  | Some _ => initComponents
  end.

(** The export statement (lines 431-441). *)
Definition export : js state unit :=
  modify (λ st,
    {| listeners := listeners st; reveal_observers := reveal_observers st;
       section_observers := section_observers st;
       deferred := deferred st; module := Exports.export (module st) |}).

(** The statements of the file, in order. *)
Definition load : js state unit :=
  new_App;;
  export.

End load.

(** [module.exports] after the load. *)
Definition exported (st : state) : option Exports.object :=
  m ← module st; Exports.exports m.

(** Script that leaves [module] alone, also when it throws. *)
Definition keeps_module (m : js state unit) : Prop :=
  ∀ st, module (snd (m st)) = module st.

End Script.

(** ** The style-state tokens *)

Module Tokens.

(** The tokens the widgets write. *)
Definition written : list string := ["active"; "scrolled"; "visible"].

(** Script that neither gives token [c] to an element nor takes it away,
    even when it throws. *)
Definition leaves {A} (c : string) (m : js page A) : Prop :=
  ∀ p e, marked c (snd (m p)) e ↔ marked c p e.

End Tokens.

(** * Properties *)

(** The document operations and the handlers are used through their
    equations below. *)
Global Arguments DOM.add : simpl never.
Global Arguments DOM.remove : simpl never.
Global Arguments DOM.toggle : simpl never.
Global Arguments DOM.contains : simpl never.
Global Arguments DOM.classList : simpl never.
Global Arguments MobileMenu.toggleMenu : simpl never.
Global Arguments MobileMenu.closeMenu : simpl never.
Global Arguments MobileMenu.call : simpl never.

(** ** classList facts shared by the widgets *)

Section classList_facts.
Implicit Types (p : page) (e f : node) (c d : string).

Lemma classList_set e f cs p :
  classList (set_classList e cs p) f = if decide (e = f) then cs else classList p f.
Proof.
  unfold classList, set_classList; simpl.
  rewrite lookup_insert. by case_decide.
Qed.

Lemma classList_add e f c p :
  classList (add e c p) f
  = if decide (e = f) then {[c]} ∪ classList p f else classList p f.
Proof. unfold add. rewrite classList_set. case_decide; by subst. Qed.

Lemma classList_remove e f c p :
  classList (remove e c p) f
  = if decide (e = f) then classList p f ∖ {[c]} else classList p f.
Proof. unfold remove. rewrite classList_set. case_decide; by subst. Qed.

Lemma marked_add e f c d p :
  marked d (add e c p) f ↔ (e = f ∧ c = d) ∨ marked d p f.
Proof.
  unfold marked. rewrite classList_add. case_decide; set_solver.
Qed.

Lemma marked_remove e f c d p :
  marked d (remove e c p) f ↔ marked d p f ∧ ¬ (e = f ∧ c = d).
Proof.
  unfold marked. rewrite classList_remove. case_decide; set_solver.
Qed.

Lemma marked_toggle e f c d p :
  marked d (toggle e c p) f
  ↔ if decide (e = f ∧ c = d) then ¬ marked d p f else marked d p f.
Proof.
  unfold toggle, contains. case_bool_decide as Hc.
  - rewrite marked_remove. case_decide as Hd; [|tauto].
    destruct Hd as [-> ->]. unfold marked. tauto.
  - rewrite marked_add. case_decide as Hd; [|tauto].
    destruct Hd as [-> ->]. unfold marked. tauto.
Qed.

Lemma marked_set_overflow c v p e :
  marked c (set_overflow v p) e ↔ marked c p e.
Proof. done. Qed.

Lemma overflow_add e c p : overflow (add e c p) = overflow p.
Proof. done. Qed.
Lemma overflow_remove e c p : overflow (remove e c p) = overflow p.
Proof. done. Qed.
Lemma overflow_toggle e c p : overflow (toggle e c p) = overflow p.
Proof. unfold toggle. by case_match. Qed.

Lemma contains_marked e c p : contains e c p = true ↔ marked c p e.
Proof. unfold contains. by rewrite bool_decide_eq_true. Qed.

(** Writing the same token set twice is writing it once. *)
Lemma set_classList_twice e cs cs' p :
  set_classList e cs (set_classList e cs' p) = set_classList e cs p.
Proof. unfold set_classList; simpl. by rewrite insert_insert_eq. Qed.

Lemma add_add e c p : add e c (add e c p) = add e c p.
Proof.
  unfold add at 1. rewrite classList_add, decide_True by done.
  unfold add. rewrite set_classList_twice. f_equal. set_solver.
Qed.

Lemma remove_remove e c p : remove e c (remove e c p) = remove e c p.
Proof.
  unfold remove at 1. rewrite classList_remove, decide_True by done.
  unfold remove. rewrite set_classList_twice. f_equal. set_solver.
Qed.

End classList_facts.

(** ** Lists *)

Section list_facts.
Context {A B : Type}.

Lemma no_elements (l : list A) : (∀ x, x ∉ l) → l = [].
Proof. destruct l as [|x l]; [done|]. intros Hl. destruct (Hl x). by left. Qed.

Lemma foldl_ext (f g : B → A → B) (b : B) (l : list A) :
  (∀ b x, f b x = g b x) → foldl f b l = foldl g b l.
Proof.
  intros Hfg. revert b. induction l as [|x l IH]; intros b; [done|].
  cbn [foldl]. by rewrite Hfg, IH.
Qed.

(** Values that are pairwise distinct under [f]: at most one of them is
    sent to [v]. *)
Lemma at_most_one_preimage (f : A → B) (v : B) (P : A → Prop)
    `{∀ x, Decision (P x)} (l : list A) :
  NoDup (f <$> l) →
  (∀ x, x ∈ l → P x → f x = v) →
  length (filter P l) ≤ 1.
Proof.
  intros Hnd HP. induction l as [|x l IH]; [simpl; lia|].
  rewrite fmap_cons in Hnd. apply NoDup_cons in Hnd as [Hnin Hnd].
  rewrite filter_cons. case_decide as Hx.
  - rewrite (no_elements (filter P l)); [simpl; lia|].
    intros y [Hy HPy]%list_elem_of_filter. apply Hnin.
    rewrite (HP x), <-(HP y); [|by right|done|by left|done].
    by apply list_elem_of_fmap_2.
  - apply IH; [done|]. intros y Hy. apply HP. by right.
Qed.

End list_facts.

(** ** Running script *)

Section js_facts.
Context {S : Type}.

Lemma run_ret {A B} (a : A) (k : A → js S B) s : (mret a ≫= k) s = k a s.
Proof. reflexivity. Qed.

Lemma run_modify {B} (f : S → S) (k : unit → js S B) s :
  (modify f ≫= k) s = k tt (f s).
Proof. reflexivity. Qed.

Lemma run_gets {A B} (f : S → A) (k : A → js S B) s :
  (gets f ≫= k) s = k (f s) s.
Proof. reflexivity. Qed.

Lemma run_throw {A B} e (k : A → js S B) s :
  (throw e ≫= k) s = (Throw e, s).
Proof. reflexivity. Qed.

Lemma run_deref_Some {A B} (a : A) (k : A → js S B) s :
  (deref (Some a) ≫= k) s = k a s.
Proof. reflexivity. Qed.

Lemma run_deref_None {A B} (k : A → js S B) s :
  (deref None ≫= k) s = (Throw TypeError, s).
Proof. reflexivity. Qed.

Lemma run_bind {A B} (m : js S A) (k : A → js S B) s :
  (m ≫= k) s
  = match m s with
    | (Return a, s') => k a s'
    | (Throw e, s') => (Throw e, s')
    end.
Proof. reflexivity. Qed.

Lemma forEach_cons {A} (f : A → js S unit) x l s :
  forEach f (x :: l) s
  = match f x s with
    | (Return _, s') => forEach f l s'
    | (Throw e, s') => (Throw e, s')
    end.
Proof. reflexivity. Qed.

(** A loop whose body never throws runs to its end; its effect is the
    fold of the bodies. *)
Lemma forEach_total {A} (f : A → js S unit) l s :
  (∀ x s, fst (f x s) = Return tt) →
  forEach f l s = (Return tt, foldl (λ s x, snd (f x s)) s l).
Proof.
  intros Hf. revert s. induction l as [|x l IH]; intros s; [done|].
  rewrite forEach_cons. specialize (Hf x s). cbn [foldl].
  destruct (f x s) as [[[]|e] s']; simpl in *; [apply IH|done].
Qed.

End js_facts.

(** ** debounce *)

Section debounce_facts.
Import Debounce.
Context {A U : Type} (func : A → U → U).
Implicit Types (w : world A U) (t : timer A) (a : A).

Lemma set_now_id w : set_now (now w) w = w.
Proof. by destruct w. Qed.

Lemma settle_nothing_due w :
  Forall (λ t, now w < due t) (pending w) → settle func w = w.
Proof.
  intros Hdue. unfold settle.
  replace (filter (λ t, due t ≤ now w) (pending w)) with (@nil (timer A)); [done|].
  symmetry. induction Hdue as [|t ts Ht _ IH]; [done|].
  rewrite filter_cons_False by lia. done.
Qed.

Lemma advance_S d w : advance func (S d) w = tick func (advance func d w).
Proof. done. Qed.

(** Before the timer is due nothing happens but the clock. *)
Lemma advance_before_due d w :
  Forall (λ t, now w + d < due t) (pending w) →
  advance func d w = set_now (now w + d) w.
Proof.
  induction d as [|d IH]; intros Hdue.
  - unfold advance; simpl. rewrite Nat.add_0_r, set_now_id.
    apply settle_nothing_due.
    eapply Forall_impl; [exact Hdue|]. simpl. intros; lia.
  - rewrite advance_S, IH.
    2:{ eapply Forall_impl; [exact Hdue|]. simpl. intros; lia. }
    unfold tick. simpl.
    rewrite settle_nothing_due; simpl.
    + unfold set_now. f_equal. lia.
    + eapply Forall_impl; [exact Hdue|]. simpl. intros; lia.
Qed.

(** With nothing pending nothing happens at all. *)
Lemma advance_idle d w :
  pending w = [] → advance func d w = set_now (now w + d) w.
Proof. intros Hp. apply advance_before_due. rewrite Hp. constructor. Qed.

(** The moment the timer is due it runs: [func] is called once. *)
Lemma settle_due wait T a w :
  armed wait T a w → wait = 0 →
  settle func w
  = {| now := T; next_handle := next_handle w; pending := [];
       timeout := timeout w; user := func a (user w);
       calls := calls w ++ [(T, a)] |}.
Proof.
  intros [HT (h & Hp & Ht)] ->. unfold settle. rewrite Hp, HT.
  rewrite filter_cons_True by (simpl; lia). rewrite filter_nil. simpl.
  unfold is_pending. rewrite Hp. rewrite bool_decide_eq_true_2 by set_solver.
  unfold fire, later, set_pending, call_func; simpl.
  rewrite Hp, Ht. simpl.
  rewrite filter_cons_False by (simpl; tauto). rewrite filter_nil. simpl.
  by rewrite HT.
Qed.

Lemma tick_due wait T a w h :
  pending w = [Timer h (T + wait) a] → timeout w = Some h →
  S (now w) = T + wait →
  tick func w
  = {| now := T + wait; next_handle := next_handle w; pending := [];
       timeout := timeout w; user := func a (user w);
       calls := calls w ++ [(T + wait, a)] |}.
Proof.
  intros Hp Ht Hnow. unfold tick.
  erewrite (settle_due 0 (T + wait) a); simpl; [done| |done].
  split; simpl; [done|]. exists h. by rewrite Nat.add_0_r.
Qed.

(** What [d] quiet milliseconds do to an armed wrapper. *)
Lemma advance_armed wait T a w d :
  armed wait T a w →
  advance func d w
  = if decide (d < wait) then set_now (T + d) w
    else {| now := T + d; next_handle := next_handle w; pending := [];
            timeout := timeout w; user := func a (user w);
            calls := calls w ++ [(T + wait, a)] |}.
Proof.
  intros Harmed. pose proof Harmed as [HT (h & Hp & Ht)].
  case_decide as Hd.
  - rewrite advance_before_due, HT; [done|].
    rewrite Hp. repeat constructor. simpl. lia.
  - assert (∃ k, d = wait + k) as [k ->] by (exists (d - wait); lia).
    clear Hd. induction k as [|k IH].
    + rewrite Nat.add_0_r. destruct wait as [|wait].
      * unfold advance; simpl. rewrite (settle_due 0 T a) by done.
        by rewrite !Nat.add_0_r.
      * rewrite advance_S, advance_before_due.
        2:{ rewrite Hp. repeat constructor. simpl. lia. }
        rewrite (tick_due (S wait) T a _ h); simpl; [done..|lia].
    + replace (wait + S k) with (S (wait + k)) by lia.
      rewrite advance_S, IH. unfold tick; simpl.
      rewrite settle_nothing_due by constructor.
      f_equal. lia.
Qed.

(** A call of the wrapper drops the timer of the call before it and sets
    its own. *)
Lemma executedFunction_arms wait a w :
  (pending w = [] ∨ ∃ t, pending w = [t] ∧ timeout w = Some (handle t)) →
  armed (timer_delay wait) (now w) a (executedFunction wait a w)
  ∧ user (executedFunction wait a w) = user w
  ∧ calls (executedFunction wait a w) = calls w.
Proof.
  intros Hw. unfold executedFunction, armed; simpl.
  assert (pending (clearTimeout (timeout w) w) = []) as Hclear.
  { destruct Hw as [Hp|(t & Hp & Ht)].
    - unfold clearTimeout. destruct (timeout w); simpl; [|done].
      by rewrite Hp.
    - rewrite Ht. simpl. rewrite Hp.
      by rewrite filter_cons_False by (simpl; tauto). }
  assert (now (clearTimeout (timeout w) w) = now w
          ∧ user (clearTimeout (timeout w) w) = user w
          ∧ calls (clearTimeout (timeout w) w) = calls w) as (Hn & Hu & Hc).
  { by destruct (timeout w). }
  rewrite Hclear, Hn, Hu, Hc. simpl. split_and!; eauto.
Qed.








End debounce_facts.


(** The window is strict: a call exactly [wait] after the one before finds
    the timer already run. *)
Example debounce_gap_of_wait_runs_twice :
  let func := λ (a : string) (log : list string), log ++ [a] in
  Debounce.calls
    (Debounce.advance func 20
       (Debounce.burst func 20 [(20, "b")]
          (Debounce.executedFunction 20 "a" (Debounce.fresh 0 1 []))))
  = [(20, "a"); (40, "b")].
Proof. reflexivity. Qed.



(** ** Listeners *)

Section listener_facts.
Context {H : Type}.
Implicit Types (regs : list (registration H)) (h : H).

Lemma listeners_at_app regs regs' ty tg :
  listeners_at (regs ++ regs') ty tg
  = listeners_at regs ty tg ++ listeners_at regs' ty tg.
Proof. unfold listeners_at. by rewrite filter_app, fmap_app. Qed.

Lemma listeners_at_cons r regs ty tg :
  listeners_at (r :: regs) ty tg
  = (if decide (on r = tg ∧ type r = ty) then [handler r] else [])
    ++ listeners_at regs ty tg.
Proof.
  unfold listeners_at. rewrite filter_cons. by case_decide.
Qed.

Lemma listeners_at_nil ty tg : listeners_at (@nil (registration H)) ty tg = [].
Proof. done. Qed.

Lemma elem_of_listeners_at regs ty tg h :
  h ∈ listeners_at regs ty tg ↔ Reg tg ty h ∈ regs.
Proof.
  unfold listeners_at. rewrite list_elem_of_fmap. split.
  - intros ([tg' ty' h'] & -> & Hin). apply list_elem_of_filter in Hin.
    simpl in Hin. by destruct Hin as [[-> ->] Hin].
  - intros Hin. exists (Reg tg ty h). split; [done|].
    apply list_elem_of_filter. by split.
Qed.

(** No listener of that type anywhere: the event runs no script. *)
Lemma listeners_for_no_type regs ev :
  Forall (λ r, type r ≠ type_of ev) regs → listeners_for regs ev = [].
Proof.
  intros Hty. unfold listeners_for.
  assert (∀ tg, listeners_at regs (type_of ev) tg = []) as Hnone.
  { intros tg. induction Hty as [|r regs Hr _ IHr]; [done|].
    rewrite listeners_at_cons, IHr, decide_False by tauto. done. }
  induction (propagation ev) as [|tg tgs IH]; [done|].
  by rewrite bind_cons, IH, Hnone.
Qed.

End listener_facts.

(** ** MobileMenu *)

Section mobile_menu_facts.
Import MobileMenu.
Variables (t m : node) (items : list node).
Hypothesis distinct : t ≠ m.

Let w := Widget (Some t) (Some m) items.

Local Abbreviation opened := (opened w).
Local Abbreviation closed := (closed w).
Local Abbreviation shut := (shut w).

Lemma registered_eq :
  registered w
  = Reg (OnNode t) "click" toggle_click
      :: ((λ item, Reg (OnNode item) "click" item_click) <$> items)
      ++ [Reg OnDocument "click" document_click;
          Reg OnDocument "keydown" document_keydown].
Proof.
  unfold registered, init; simpl. unfold mbind, js_bind, modify; simpl.
  by rewrite <-app_assoc.
Qed.

Lemma toggleMenu_eq p :
  toggleMenu w p
  = (Return tt,
     let q := DOM.toggle m "active" (DOM.toggle t "active" p) in
     set_overflow (if contains m "active" q then "hidden" else "") q).
Proof. reflexivity. Qed.

Lemma closeMenu_eq p :
  closeMenu w p
  = (Return tt, set_overflow "" (remove m "active" (remove t "active" p))).
Proof. reflexivity. Qed.

Lemma is_open_marked p : is_open w p = true ↔ marked "active" p m.
Proof. apply contains_marked. Qed.

Lemma is_open_closed p : is_open w (closed p) = false.
Proof.
  apply not_true_iff_false. rewrite is_open_marked.
  unfold closed. rewrite closeMenu_eq. cbn [snd].
  rewrite marked_set_overflow, marked_remove. tauto.
Qed.

Lemma overflow_closed p : overflow (closed p) = "".
Proof. unfold closed. by rewrite closeMenu_eq. Qed.

Lemma is_open_opened p : is_open w (opened p) = negb (is_open w p).
Proof.
  apply eq_true_iff_eq. rewrite negb_true_iff, <-not_true_iff_false.
  rewrite !is_open_marked.
  unfold opened. rewrite toggleMenu_eq. cbn [snd]. cbv zeta.
  rewrite marked_set_overflow, marked_toggle, decide_True by done.
  rewrite marked_toggle, decide_False by tauto. done.
Qed.

Lemma overflow_opened p :
  overflow (opened p) = if is_open w (opened p) then "hidden" else "".
Proof.
  unfold opened. rewrite toggleMenu_eq. cbn [snd]. cbv zeta.
  set (q := DOM.toggle m "active" (DOM.toggle t "active" p)).
  change (is_open w (set_overflow (if contains m "active" q then "hidden" else "") q))
    with (contains m "active" q).
  done.
Qed.

(** *** What each listener does *)

Lemma call_item_click ev p : snd (call w ev item_click p) = closed p.
Proof. done. Qed.

Lemma call_toggle_click ev p : snd (call w ev toggle_click p) = opened p.
Proof. done. Qed.

Lemma call_document_click ev p :
  snd (call w ev document_click p)
  = if negb (contains_target m ev) && negb (contains_target t ev)
    then closed p else p.
Proof.
  unfold call; simpl. unfold mbind, js_bind; simpl.
  destruct (contains_target m ev); simpl; [done|].
  by destruct (contains_target t ev).
Qed.

Lemma call_document_keydown ev p :
  snd (call w ev document_keydown p)
  = match ev with
    | Keydown key _ => if bool_decide (key = "Escape") then closed p else p
    | _ => p
    end.
Proof. destruct ev; try done. unfold call. by case_bool_decide. Qed.

(** Every listener but the toggle's closes the menu or does nothing. *)
Lemma call_closes_or_skips ev h p :
  h ≠ toggle_click →
  snd (call w ev h p) = p ∨ snd (call w ev h p) = closed p.
Proof.
  destruct h; intros ?; [done|by right| |].
  - rewrite call_document_click. destruct (_ && _); eauto.
  - rewrite call_document_keydown. destruct ev; eauto. case_bool_decide; eauto.
Qed.

Lemma shut_closed p : shut (closed p).
Proof. split; [apply is_open_closed|apply overflow_closed]. Qed.

Lemma call_all_keeps_shut ev hs p :
  Forall (λ h, h ≠ toggle_click) hs → shut p → shut (call_all (call w ev) hs p).
Proof.
  intros Hhs. revert p. induction Hhs as [|h hs Hh _ IH]; intros p Hp; [done|].
  simpl. apply IH.
  destruct (call_closes_or_skips ev h p Hh) as [->| ->]; [done|apply shut_closed].
Qed.

Lemma call_all_closes ev hs h p :
  Forall (λ h, h ≠ toggle_click) hs →
  h ∈ hs → (∀ q, snd (call w ev h q) = closed q) →
  shut (call_all (call w ev) hs p).
Proof.
  intros Hhs Hin Hh. apply list_elem_of_split in Hin as (hs1 & hs2 & ->).
  apply Forall_app in Hhs as [_ Hhs2]. apply Forall_cons in Hhs2 as [_ Hhs2].
  unfold call_all in *. rewrite foldl_app. simpl. rewrite Hh.
  apply (call_all_keeps_shut ev hs2); [done|apply shut_closed].
Qed.

(** *** Which listeners an event reaches *)

Let item_regs : list (registration listener) :=
  (λ item, Reg (OnNode item) "click" item_click) <$> items.

Lemma item_listeners ty tg h :
  h ∈ listeners_at item_regs ty tg
  ↔ h = item_click ∧ ty = "click" ∧ ∃ i, i ∈ items ∧ tg = OnNode i.
Proof.
  rewrite elem_of_listeners_at. unfold item_regs. rewrite list_elem_of_fmap.
  split.
  - intros (i & Heq & Hi). injection Heq as -> -> ->. eauto.
  - intros (-> & -> & i & Hi & ->). eauto.
Qed.

Lemma node_listeners ty n :
  listeners_at (registered w) ty (OnNode n)
  = (if decide (t = n ∧ "click" = ty) then [toggle_click] else [])
    ++ listeners_at item_regs ty (OnNode n).
Proof.
  rewrite registered_eq, listeners_at_cons, listeners_at_app. simpl.
  rewrite !listeners_at_cons, listeners_at_nil. simpl.
  rewrite app_nil_r. f_equal.
  destruct (decide (t = n ∧ "click" = ty)) as [[-> <-]|Hne].
  - by rewrite decide_True.
  - rewrite decide_False; [done|]. intros [[= ->] <-]. by apply Hne.
Qed.

Lemma document_listeners ty :
  listeners_at (registered w) ty OnDocument
  = (if decide ("click" = ty) then [document_click] else [])
    ++ (if decide ("keydown" = ty) then [document_keydown] else []).
Proof.
  rewrite registered_eq, listeners_at_cons, listeners_at_app. simpl.
  fold item_regs.
  rewrite (no_elements (listeners_at item_regs ty OnDocument)).
  2:{ intros h Hh. apply item_listeners in Hh as (_ & _ & i & _ & Hi).
      discriminate Hi. }
  rewrite !listeners_at_cons, listeners_at_nil. simpl.
  rewrite app_nil_r.
  f_equal; case_decide as H1; case_decide as H2; try done; tauto.
Qed.

Lemma window_listeners ty : listeners_at (registered w) ty OnWindow = [].
Proof.
  apply no_elements. intros h. rewrite elem_of_listeners_at, registered_eq.
  rewrite elem_of_cons, elem_of_app, list_elem_of_fmap, !elem_of_cons, elem_of_nil.
  intros [[=]|[(i & [=] & _)|[[=]|[[=]|[]]]]].
Qed.

Lemma listeners_on_path ty (path : list node) :
  ((OnNode <$> path) ++ [OnDocument; OnWindow]) ≫= listeners_at (registered w) ty
  = (path ≫= λ n, listeners_at (registered w) ty (OnNode n))
    ++ listeners_at (registered w) ty OnDocument.
Proof.
  rewrite bind_app. f_equal.
  - induction path as [|n path IH]; [done|].
    rewrite fmap_cons, !bind_cons. by rewrite IH.
  - rewrite !bind_cons, window_listeners.
    change (@nil Events.target ≫= listeners_at (registered w) ty) with (@nil listener).
    by rewrite !app_nil_r.
Qed.

Lemma bind_nothing {A B} (f : A → list B) (l : list A) :
  Forall (λ x, f x = []) l → l ≫= f = [].
Proof.
  induction 1 as [|x l Hx _ IH]; [done|]. by rewrite bind_cons, Hx, IH.
Qed.

Lemma click_listeners (path : list node) :
  listeners_for (registered w) (Click path)
  = (path ≫= λ n, listeners_at (registered w) "click" (OnNode n))
    ++ [document_click].
Proof.
  unfold listeners_for; simpl. rewrite listeners_on_path, document_listeners.
  by rewrite decide_True, decide_False by done.
Qed.

Lemma keydown_listeners key path :
  listeners_for (registered w) (Keydown key path) = [document_keydown].
Proof.
  unfold listeners_for; simpl. rewrite listeners_on_path, document_listeners.
  rewrite decide_False, decide_True by done. simpl.
  rewrite bind_nothing; [done|].
  apply Forall_forall. intros n _. rewrite node_listeners.
  rewrite decide_False by (by intros [_ ?]). simpl.
  apply no_elements. by intros h (_ & [=] & _)%item_listeners.
Qed.

(** A click on the toggle reaches the toggle's listener, once, and the
    document's. *)
Lemma toggle_click_listeners path :
  NoDup path → t ∈ path → (∀ i, i ∈ items → i ∉ path) →
  listeners_for (registered w) (Click path) = [toggle_click; document_click].
Proof.
  intros Hnd Ht Hitems. rewrite click_listeners.
  change [toggle_click; document_click] with ([toggle_click] ++ [document_click]).
  f_equal.
  assert (∀ n, n ∈ path → listeners_at item_regs "click" (OnNode n) = []) as Hno.
  { intros n Hn. apply no_elements.
    intros h (_ & _ & i & Hi & [= ->])%item_listeners. by apply (Hitems i). }
  apply list_elem_of_split in Ht as (l1 & l2 & ->).
  apply NoDup_app in Hnd as (_ & Hl1 & Hl2%NoDup_cons).
  destruct Hl2 as [Htl2 _].
  rewrite bind_app, bind_cons.
  rewrite (bind_nothing _ l1), (bind_nothing _ l2); simpl.
  - rewrite node_listeners, decide_True by done.
    rewrite Hno by set_solver. done.
  - apply Forall_forall. intros n Hn. rewrite node_listeners.
    rewrite decide_False by (intros [-> _]; done).
    rewrite Hno by set_solver. done.
  - apply Forall_forall. intros n Hn. rewrite node_listeners.
    rewrite decide_False by (intros [-> _]; apply (Hl1 n); set_solver).
    rewrite Hno by set_solver. done.
Qed.

(** A click that does not pass the toggle reaches no toggle listener. *)
Lemma other_click_listeners path :
  t ∉ path →
  Forall (λ h, h ≠ toggle_click) (listeners_for (registered w) (Click path)).
Proof.
  intros Ht. rewrite click_listeners. apply Forall_app. split; [|by repeat constructor].
  apply Forall_forall. intros h (n & Hh & Hn)%list_elem_of_bind.
  rewrite node_listeners in Hh.
  rewrite decide_False in Hh by (intros [-> _]; done). simpl in Hh.
  by apply item_listeners in Hh as (-> & _).
Qed.

Lemma link_click_listeners path i :
  i ∈ items → i ∈ path →
  item_click ∈ listeners_for (registered w) (Click path).
Proof.
  intros Hi Hp. rewrite click_listeners. apply elem_of_app. left.
  apply list_elem_of_bind. exists i. split; [|done].
  rewrite node_listeners. apply elem_of_app. right.
  apply item_listeners. eauto.
Qed.

(** *** One event, one transition *)

Lemma hits_false path :
  hits items path = false → ∀ i, i ∈ items → i ∉ path.
Proof.
  unfold hits. rewrite bool_decide_eq_false, Exists_exists. naive_solver.
Qed.

Lemma hits_true path :
  hits items path = true → ∃ i, i ∈ items ∧ i ∈ path.
Proof. unfold hits. by rewrite bool_decide_eq_true, Exists_exists. Qed.

Lemma dispatch_input ev i p :
  input_of t m items ev = Some i →
  match i with
  | ToggleClick => dispatch w ev p = opened p
  | _ => shut (dispatch w ev p)
  end.
Proof.
  unfold input_of, dispatch. destruct ev as [path|key path| | |]; try done.
  - case_bool_decide as Hnd; [|done].
    case_bool_decide as Ht; destruct (hits items path) eqn:Hhits;
      try case_bool_decide as Hm; intros [= <-].
    + rewrite toggle_click_listeners by eauto using hits_false.
      unfold call_all. cbn [foldl].
      rewrite call_toggle_click, call_document_click.
      unfold contains_target. cbn [path_of].
      rewrite (bool_decide_eq_true_2 (t ∈ path)) by done.
      by rewrite andb_false_r.
    + apply hits_true in Hhits as (it & Hit & Hpath).
      eapply call_all_closes;
        [by apply other_click_listeners|by eapply link_click_listeners|done].
    + eapply (call_all_closes _ _ document_click);
        [by apply other_click_listeners|rewrite click_listeners; set_solver|].
      intros q. rewrite call_document_click.
      unfold contains_target. cbn [path_of].
      by rewrite !bool_decide_eq_false_2.
  - case_bool_decide as Hkey; intros [= <-]. rewrite keydown_listeners.
    unfold call_all. cbn [foldl]. rewrite call_document_keydown.
    rewrite bool_decide_eq_true_2 by done. apply shut_closed.
Qed.

Lemma scroll_locked_shut p : shut p → scroll_locked p = is_open w p.
Proof. intros [-> Ho]. unfold scroll_locked. by rewrite Ho. Qed.

Lemma scroll_locked_opened p : scroll_locked (opened p) = is_open w (opened p).
Proof.
  unfold scroll_locked. rewrite overflow_opened. by destruct (is_open w _).
Qed.

(** The widget follows the machine, one input at a time. *)
Lemma dispatch_refines ev i p :
  input_of t m items ev = Some i →
  state_of w (dispatch w ev p) = machine_step (state_of w p) i
  ∧ scroll_locked (dispatch w ev p) = is_open w (dispatch w ev p).
Proof.
  intros Hi. pose proof (dispatch_input ev i p Hi) as Hd.
  unfold state_of. destruct i.
  - rewrite Hd. split; [|apply scroll_locked_opened].
    rewrite is_open_opened. by destruct (is_open w p).
  - split; [destruct Hd as [-> _]; by destruct (is_open w p)
           |by apply scroll_locked_shut].
  - split; [destruct Hd as [-> _]; by destruct (is_open w p)
           |by apply scroll_locked_shut].
  - split; [destruct Hd as [-> _]; by destruct (is_open w p)
           |by apply scroll_locked_shut].
Qed.

Lemma run_snoc evs ev p : run w (evs ++ [ev]) p = dispatch w ev (run w evs p).
Proof. unfold run. by rewrite foldl_app. Qed.

Lemma run_refines evs inputs p :
  Forall2 (λ ev i, input_of t m items ev = Some i) evs inputs →
  state_of w (run w evs p) = machine_run (state_of w p) inputs
  ∧ (evs ≠ [] → scroll_locked (run w evs p) = is_open w (run w evs p)).
Proof.
  intros Hevs. revert p.
  induction Hevs as [|ev i evs inputs Hi _ IH]; intros p; [done|].
  simpl. destruct (dispatch_refines ev i p Hi) as [Hst Hlock].
  destruct (IH (dispatch w ev p)) as [IHst IHlock].
  rewrite IHst, Hst. split; [done|]. intros _.
  destruct evs as [|ev' evs]; [done|]. by apply IHlock.
Qed.

(** C2.  From the CLOSED state, after every prefix of a sequence of toggle
    clicks, navigation-link clicks, outside clicks and Escape keydowns the
    menu is open exactly when the two-state machine of the specification
    is in OPEN, and after every event the page scroll lock (body overflow
    ['hidden']) holds if and only if the menu is open.  The toggle control
    and the menu are two elements. *)
Theorem mobile_menu_follows_machine
    (evs : list event) (inputs : list input) (p : page) :
  is_open w p = false →
  Forall2 (λ ev i, input_of t m items ev = Some i) evs inputs →
  ∀ k,
    state_of w (run w (take k evs) p) = machine_run CLOSED (take k inputs)
    ∧ (0 < k → evs ≠ [] →
       scroll_locked (run w (take k evs) p) = is_open w (run w (take k evs) p)).
Proof.
  intros Hclosed Hevs k.
  destruct (run_refines (take k evs) (take k inputs) p) as [Hst Hlock].
  { by apply Forall2_take. }
  split.
  - rewrite Hst. unfold state_of. by rewrite Hclosed.
  - intros Hk Hne. apply Hlock. destruct evs; [done|]. by destruct k; [lia|].
Qed.

End mobile_menu_facts.

Lemma mobile_menu_follows_machine_witness :
  let w := MobileMenu.Widget (Some 1) (Some 2) [3; 4] in
  let evs := [Click [1; 0]; Click [3; 2; 0]; Click [1; 0];
              Keydown "Escape" [0]; Click [1; 0]; Click [9; 0]] in
  let inputs := [MobileMenu.ToggleClick; MobileMenu.LinkClick;
                 MobileMenu.ToggleClick; MobileMenu.EscapeKey;
                 MobileMenu.ToggleClick; MobileMenu.OutsideClick] in
  MobileMenu.state_of w (MobileMenu.run w (take 5 evs) (Page ∅ ""))
    = MobileMenu.machine_run MobileMenu.CLOSED (take 5 inputs)
  ∧ MobileMenu.scroll_locked (MobileMenu.run w (take 5 evs) (Page ∅ ""))
    = MobileMenu.is_open w (MobileMenu.run w (take 5 evs) (Page ∅ "")).
Proof.
  intros w evs inputs.
  destruct (mobile_menu_follows_machine 1 2 [3; 4] ltac:(lia) evs inputs (Page ∅ ""))
    with (k := 5) as [Hstate Hlock].
  - reflexivity.
  - repeat constructor.
  - split; [exact Hstate|]. apply Hlock; [lia|discriminate].
Defined.

Global Arguments MobileMenu.dispatch : simpl never.

(** The two elements must differ: were the toggle control also the menu,
    [toggleMenu] would flip the one token twice and the menu never open. *)
Example mobile_menu_toggle_is_menu :
  let w := MobileMenu.Widget (Some 1) (Some 1) [] in
  MobileMenu.is_open w (MobileMenu.run w [Click [1; 0]] (Page ∅ "")) = false.
Proof. reflexivity. Qed.

(** ** ScrollHeader *)

Section scroll_header_facts.
Import ScrollHeader.
Variable h : node.

Let w := ScrollHeader.new (Some h).

Lemma tick_eq (s : Qc) p :
  tick w s p
  = if bool_decide (Q2Qc 100 < s)%Qc then add h "scrolled" p
    else remove h "scrolled" p.
Proof. unfold tick, on_scroll. unfold w, new; cbn [header scrollThreshold deref]. by case_bool_decide. Qed.

Lemma on_scroll_returns (s : Qc) p : fst (on_scroll w s p) = Return tt.
Proof. unfold on_scroll. by case_bool_decide. Qed.

Lemma scrolled_marked p : scrolled w p = true ↔ marked "scrolled" p h.
Proof. apply contains_marked. Qed.

(** C4.  After a tick of the debounced ScrollHeader callback that reads
    the vertical scroll offset [s], the header carries 'scrolled' if and
    only if [s > 100].  The tick is a function of [s] alone as far as that
    marking goes (whatever the page was before), leaves every other token
    and element as it was, does not throw, and doing it twice is doing it
    once. *)
Theorem scroll_header_tick (s : Qc) (p : page) :
  (scrolled w (tick w s p) = true ↔ (Q2Qc 100 < s)%Qc)
  ∧ (∀ p', scrolled w (tick w s p') = scrolled w (tick w s p))
  ∧ tick w s (tick w s p) = tick w s p
  ∧ fst (on_scroll w s p) = Return tt
  ∧ (∀ e c, ¬ (e = h ∧ c = "scrolled") →
       marked c (tick w s p) e ↔ marked c p e).
Proof.
  assert (∀ q, scrolled w (tick w s q) = true ↔ (Q2Qc 100 < s)%Qc) as Hiff.
  { intros q. rewrite scrolled_marked, tick_eq. case_bool_decide as Hs.
    - rewrite marked_add. tauto.
    - rewrite marked_remove. tauto. }
  split_and!.
  - apply Hiff.
  - intros p'. apply eq_true_iff_eq. by rewrite !Hiff.
  - rewrite !tick_eq. case_bool_decide; [apply add_add|apply remove_remove].
  - apply on_scroll_returns.
  - intros e c Hne. rewrite tick_eq. case_bool_decide.
    + rewrite marked_add. naive_solver.
    + rewrite marked_remove. naive_solver.
Qed.

End scroll_header_facts.

(** The scenario of the specification: at offset 150 the marking is added,
    back at offset 50 it is removed. *)
Example scroll_header_down_and_up :
  let w := ScrollHeader.new (Some 0) in
  let p1 := ScrollHeader.tick w (Q2Qc 150) (Page ∅ "") in
  let p2 := ScrollHeader.tick w (Q2Qc 50) p1 in
  ScrollHeader.scrolled w p1 = true ∧ ScrollHeader.scrolled w p2 = false.
Proof. by vm_compute. Qed.

(** ** SmoothScroll *)

Section smooth_scroll_facts.
Import SmoothScroll.
Variable querySelector : string → query.
Variable href_of : node → option string.
Variable offsetTop : node → Z.

Local Abbreviation click := (click querySelector href_of offsetTop).

(** An href that is neither empty nor the bare hash is handed to [$]. *)
Lemma click_selects anchor href :
  href_of anchor = Some href → href ≠ "" → href ≠ "#" →
  click anchor
  = match querySelector href with
    | Matched target =>
        (Return tt,
         Effects true [ScrollTo (offsetTop target - 100) "smooth"])
    | NoMatch => (Return tt, untouched)
    | InvalidSelector => (Throw SyntaxError, untouched)
    end.
Proof.
  intros Hhref Hne Hbare. unfold SmoothScroll.click, anchor_click.
  rewrite Hhref. cbn [truthy_str].
  rewrite (bool_decide_eq_false_2 (href = "")) by done.
  rewrite (bool_decide_eq_false_2 (Some href = Some "#")) by congruence.
  cbn [negb orb]. rewrite run_deref_Some.
  unfold select. destruct (querySelector href); reflexivity.
Qed.

(** The empty href and the bare hash are ignored before any lookup. *)
Lemma click_ignored anchor :
  href_of anchor = None ∨ href_of anchor = Some "" ∨ href_of anchor = Some "#" →
  click anchor = (Return tt, untouched).
Proof.
  unfold SmoothScroll.click, anchor_click. by intros [->|[->| ->]].
Qed.

(** A click on an in-page anchor link, whose href is ['#'] followed by a
    non-empty fragment, for which [$] finds an element: the handler
    cancels the default navigation and asks for one smooth scroll, to the
    target's [offsetTop] minus 100; it returns normally. *)
Lemma click_matched (anchor target : node) (fragment : string) :
  fragment ≠ "" →
  href_of anchor = Some ("#" +:+ fragment) →
  querySelector ("#" +:+ fragment) = Matched target →
  click anchor
  = (Return tt,
     {| defaultPrevented := true;
        scrollTo_calls := [ {| top := offsetTop target - 100;
                               behavior := "smooth" |} ] |}).
Proof.
  intros Hfrag Hhref Hq.
  rewrite (click_selects anchor ("#" +:+ fragment)), Hq; try done.
  intros [= ?]. done.
Qed.

(** When [$] raises on the href, so does the handler; nothing is scrolled
    and the default navigation goes on. *)
Lemma click_invalid_selector anchor href :
  href_of anchor = Some href → href ≠ "" → href ≠ "#" →
  querySelector href = InvalidSelector →
  click anchor = (Throw SyntaxError, untouched).
Proof. intros Hhref Hne Hbare Hq. by rewrite (click_selects anchor href), Hq. Qed.

Lemma click_no_match anchor href :
  href_of anchor = Some href → querySelector href = NoMatch →
  click anchor = (Return tt, untouched).
Proof.
  intros Hhref Hq.
  destruct (decide (href = "")) as [->|Hne]; [apply click_ignored; eauto|].
  destruct (decide (href = "#")) as [->|Hbare]; [apply click_ignored; eauto|].
  by rewrite (click_selects anchor href), Hq.
Qed.

End smooth_scroll_facts.

(** C6, at an input where it fails.  The anchor [<a href="#1">] on a page
    in which no element has the id [1], so that its hash matches no
    element: ['#1'] is not a selector (an identifier does not start with a
    digit) and [document.querySelector] raises a SyntaxError instead of
    giving [null].  The href passes the two guards of the handler, [$(href)]
    raises, and the click handler throws; it scrolls nothing and does not
    cancel the default navigation. *)
Theorem smooth_scroll_click_throws_on_invalid_selector :
  let querySelector := λ sel : string,
    if bool_decide (sel = "#1") then SmoothScroll.InvalidSelector
    else SmoothScroll.NoMatch in
  let href_of := λ _ : node, Some "#1" in
  (∀ target, querySelector "#1" ≠ SmoothScroll.Matched target)
  ∧ SmoothScroll.click querySelector href_of (λ _, 0%Z) 3
    = (Throw SyntaxError, SmoothScroll.untouched).
Proof. split; [intros target; vm_compute; discriminate|reflexivity]. Qed.

(** C5, at an input where it fails.  The page has [<section id="1">] at
    offset 640 and the anchor [<a href="#1">]: the href begins with ['#'],
    is not the bare hash, and an element matching the hash exists.  The
    handler hands the href to [$] as a selector; ['#1'] is not a selector
    (an identifier does not start with a digit), so
    [document.querySelector] raises a SyntaxError instead of giving the
    section.  The click handler throws: the default navigation is not
    cancelled and no scroll is requested, where the claim has the
    navigation cancelled and a scroll to offset 540. *)
Theorem smooth_scroll_click_misses_section_1 :
  let id_of := λ e : node, if decide (e = 7) then "1" else "" in
  let querySelector := λ sel : string,
    if bool_decide (sel = "#1") then SmoothScroll.InvalidSelector
    else SmoothScroll.NoMatch in
  let href_of := λ _ : node, Some "#1" in
  let offsetTop := λ _ : node, 640%Z in
  href_of 3 = Some ("#" +:+ id_of 7)
  ∧ SmoothScroll.click querySelector href_of offsetTop 3
    = (Throw SyntaxError, SmoothScroll.untouched)
  ∧ SmoothScroll.click querySelector href_of offsetTop 3
    ≠ (Return tt,
       {| SmoothScroll.defaultPrevented := true;
          SmoothScroll.scrollTo_calls :=
            [ {| SmoothScroll.top := offsetTop 7 - 100;
                 SmoothScroll.behavior := "smooth" |} ] |}).
Proof. split_and!; [reflexivity..|discriminate]. Qed.

(** The same with [<section id="part.two">] and [<a href="#part.two">]:
    as a selector ['#part.two'] asks for an element with the id [part] and
    the class [two]; there is none, [$] gives [null], and the handler
    returns without cancelling the navigation or scrolling. *)
Example smooth_scroll_click_misses_dotted_id :
  let id_of := λ e : node, if decide (e = 7) then "part.two" else "" in
  let querySelector := λ _ : string, SmoothScroll.NoMatch in
  let href_of := λ _ : node, Some "#part.two" in
  href_of 3 = Some ("#" +:+ id_of 7)
  ∧ SmoothScroll.click querySelector href_of (λ _, 640%Z) 3
    = (Return tt, SmoothScroll.untouched).
Proof. split; reflexivity. Qed.

(** Where the id is an identifier [$] finds the section, and the click
    scrolls to it. *)
Example smooth_scroll_click_to_about :
  let querySelector := λ sel : string,
    if bool_decide (sel = "#about") then SmoothScroll.Matched 7
    else SmoothScroll.NoMatch in
  let href_of := λ _ : node, Some "#about" in
  let offsetTop := λ _ : node, 640%Z in
  SmoothScroll.click querySelector href_of offsetTop 3
  = (Return tt,
     {| SmoothScroll.defaultPrevented := true;
        SmoothScroll.scrollTo_calls :=
          [ {| SmoothScroll.top := 540; SmoothScroll.behavior := "smooth" |} ] |}).
Proof. reflexivity. Qed.

(** ** Missing elements *)

(** X19.  The silent cases.  A click on an anchor for whose href [$] gives
    [null] scrolls nothing, leaves the default navigation alone and returns
    normally.  A widget whose required elements are missing returns from
    [init] at once: no listener, no observer and no timer is set, nothing
    is written, nothing is thrown.  (MobileMenu needs its toggle and its
    menu, ScrollHeader the header, ScrollReveal at least one element,
    ActiveSectionHighlighter at least one section and one link,
    TypingEffect its element, Preloader the preloader; SmoothScroll with no
    anchor has nothing to do.) *)
Theorem missing_elements_are_no_ops :
  (∀ querySelector href_of offsetTop anchor href,
     href_of anchor = Some href →
     querySelector href = SmoothScroll.NoMatch →
     SmoothScroll.click querySelector href_of offsetTop anchor
     = (Return tt, SmoothScroll.untouched))
  ∧ (∀ w regs,
       MobileMenu.toggle w = None ∨ MobileMenu.menu w = None →
       MobileMenu.init w regs = (Return tt, regs))
  ∧ (∀ regs, SmoothScroll.init [] regs = (Return tt, regs))
  ∧ (∀ w regs,
       ScrollHeader.header w = None →
       ScrollHeader.init w regs = (Return tt, regs))
  ∧ (∀ w os,
       ScrollReveal.elements w = [] →
       ScrollReveal.init w os = (Return tt, os))
  ∧ (∀ w os,
       ActiveSectionHighlighter.sections w = []
       ∨ ActiveSectionHighlighter.navLinks w = [] →
       ActiveSectionHighlighter.init w os = (Return tt, os))
  ∧ (∀ c st,
       TypingEffect.element c = None →
       TypingEffect.init c st = (Return tt, st))
  ∧ (∀ w regs,
       Preloader.preloader w = None →
       Preloader.init w regs = (Return tt, regs)).
Proof.
  split_and!.
  - intros. by eapply click_no_match.
  - intros [t m items] regs [Hw|Hw]; simpl in Hw; subst;
      unfold MobileMenu.init; cbn [MobileMenu.toggle MobileMenu.menu truthy_ref negb orb];
      [done|by destruct t].
  - done.
  - intros [h thr] regs Hw; simpl in Hw; subst. done.
  - intros [els] os Hw; simpl in Hw; subst. done.
  - intros [secs links] os [Hw|Hw]; simpl in Hw; subst;
      unfold ActiveSectionHighlighter.init;
      cbn [ActiveSectionHighlighter.sections ActiveSectionHighlighter.navLinks];
      [done|by destruct secs].
  - intros [el ws ts ds dl] st Hw; simpl in Hw; subst. done.
  - intros [pl] regs Hw; simpl in Hw; subst. done.
Qed.

Lemma missing_elements_are_no_ops_witness :
  SmoothScroll.click (λ _, SmoothScroll.NoMatch) (λ _, Some "#nowhere") (λ _, 0%Z) 3
    = (Return tt, SmoothScroll.untouched)
  ∧ MobileMenu.init (MobileMenu.Widget None (Some 2) [3; 4]) [] = (Return tt, [])
  ∧ MobileMenu.init (MobileMenu.Widget (Some 1) None [3; 4]) [] = (Return tt, [])
  ∧ ScrollHeader.init (ScrollHeader.new None) [] = (Return tt, [])
  ∧ ScrollReveal.init (ScrollReveal.Widget []) [] = (Return tt, [])
  ∧ ActiveSectionHighlighter.init (ActiveSectionHighlighter.Widget [] [3; 4]) []
    = (Return tt, [])
  ∧ ActiveSectionHighlighter.init (ActiveSectionHighlighter.Widget [7; 8] []) []
    = (Return tt, [])
  ∧ TypingEffect.init (TypingEffect.new None ["hello"]) (TypingEffect.initial "")
    = (Return tt, TypingEffect.initial "")
  ∧ Preloader.init (Preloader.Widget None) [] = (Return tt, []).
Proof.
  destruct missing_elements_are_no_ops
    as (Hclick & Hmenu & _ & Hheader & Hreveal & Hsections & Htyping & Hpreloader).
  split_and!.
  - by apply (Hclick _ _ _ 3 "#nowhere").
  - apply Hmenu. by left.
  - apply Hmenu. by right.
  - by apply Hheader.
  - by apply Hreveal.
  - apply Hsections. by left.
  - apply Hsections. by right.
  - by apply Htyping.
  - by apply Hpreloader.
Defined.

(** ** TypingEffect *)

Section typing_effect_facts.
Import TypingEffect.
Variable c : config.
Variable el : node.
Hypothesis has_element : element c = Some el.

Local Abbreviation consistent := (consistent c).

(** One call of [type], on a word that exists. *)
Lemma type_eq st currentWord :
  words c !! wordIndex st = Some currentWord →
  type c st
  = (Return tt,
     if isDeleting st then
       if bool_decide (charIndex st - 1 = 0)%Z then
         State ((wordIndex st + 1) `mod` length (words c)) (charIndex st - 1) false
           (substring0 (charIndex st - 1) currentWord) (timeouts st ++ [500])
       else
         State (wordIndex st) (charIndex st - 1) true
           (substring0 (charIndex st - 1) currentWord)
           (timeouts st ++ [deletingSpeed c])
     else
       if bool_decide (charIndex st + 1 = Z.of_nat (String.length currentWord))%Z then
         State (wordIndex st) (charIndex st + 1) true
           (substring0 (charIndex st + 1) currentWord)
           (timeouts st ++ [delayBetweenWords c])
       else
         State (wordIndex st) (charIndex st + 1) false
           (substring0 (charIndex st + 1) currentWord)
           (timeouts st ++ [typingSpeed c])).
Proof.
  intros Hword. unfold type. rewrite has_element, run_deref_Some, run_gets.
  cbn [id]. rewrite Hword, run_deref_Some.
  destruct st as [wi ci del txt tos]. cbn [isDeleting charIndex wordIndex timeouts].
  unfold mbind, js_bind, modify, gets, mret, js_ret, id.
  destruct del;
    cbn [fst snd isDeleting charIndex wordIndex timeouts textContent negb andb].
  - case_bool_decide; reflexivity.
  - case_bool_decide; reflexivity.
Qed.

Lemma type_consistent st :
  consistent st →
  ∃ st',
    type c st = (Return tt, st')
    ∧ consistent st'
    ∧ ((charIndex st' = charIndex st + 1)%Z
       ∨ ((0 < charIndex st)%Z ∧ (charIndex st' = charIndex st - 1)%Z))
    ∧ (isDeleting st = true ∧ isDeleting st' = false ↔ charIndex st' = 0%Z).
Proof.
  intros (Hwi & Hci & Hdel).
  destruct (lookup_lt_is_Some_2 (words c) (wordIndex st) Hwi) as [currentWord Hword].
  eexists. split; [by apply type_eq|].
  assert ((wordIndex st + 1) `mod` length (words c) < length (words c)) as Hmod.
  { apply Nat.mod_upper_bound. lia. }
  unfold TypingEffect.consistent.
  destruct (isDeleting st) eqn:Hd.
  - specialize (Hdel eq_refl). case_bool_decide; simpl; split_and!; try done; try lia;
      try (right; lia); try (split; [tauto|done]); try (split; [intros [_ ?]; done|lia]).
  - case_bool_decide; simpl; split_and!; try done; try lia;
      try (left; lia); split; try (intros [? _]; done); lia.
Qed.

Lemma initial_consistent text : words c ≠ [] → consistent (initial text).
Proof.
  intros Hne. unfold TypingEffect.consistent, initial; simpl. split_and!; [|done..].
  destruct (words c); [done|simpl; lia].
Qed.

Lemma steps_consistent n st :
  consistent st →
  ∃ st', steps c n st = (Return tt, st') ∧ consistent st'.
Proof.
  revert st. induction n as [|n IH]; intros st Hst; [by exists st|].
  destruct (type_consistent st Hst) as (st1 & Hty & Hst1 & _).
  destruct (IH st1 Hst1) as (st' & Hsteps & Hst').
  exists st'. split; [|done].
  cbn [steps]. by rewrite run_bind, Hty.
Qed.

(** C8.  With a non-empty word list (and the element present), any
    number of type steps after construction runs without a throw and
    leaves the char index non-negative.  The step that follows either
    increments the char index, or decrements it and then only from a
    positive value; it clears the deleting flag exactly when it brings the
    char index to 0. *)
Theorem typing_char_index_never_negative (text : string) (n : nat) :
  words c ≠ [] →
  ∃ st st',
    steps c n (initial text) = (Return tt, st)
    ∧ (0 ≤ charIndex st)%Z
    ∧ type c st = (Return tt, st')
    ∧ (0 ≤ charIndex st')%Z
    ∧ ((charIndex st' = charIndex st + 1)%Z
       ∨ ((0 < charIndex st)%Z ∧ (charIndex st' = charIndex st - 1)%Z))
    ∧ (isDeleting st = true ∧ isDeleting st' = false ↔ charIndex st' = 0%Z).
Proof.
  intros Hne.
  destruct (steps_consistent n (initial text) (initial_consistent text Hne))
    as (st & Hsteps & Hst).
  destruct (type_consistent st Hst) as (st' & Hty & Hst' & Hmove & Hflag).
  exists st, st'. split_and!; try done.
  - by destruct Hst as (_ & ? & _).
  - by destruct Hst' as (_ & ? & _).
Qed.

End typing_effect_facts.

Lemma typing_char_index_never_negative_witness :
  let c := TypingEffect.new (Some 1) ["I build"; ""; "I solve"] in
  ∃ st st',
    TypingEffect.steps c 40 (TypingEffect.initial "") = (Return tt, st)
    ∧ (0 ≤ TypingEffect.charIndex st)%Z
    ∧ TypingEffect.type c st = (Return tt, st')
    ∧ (0 ≤ TypingEffect.charIndex st')%Z
    ∧ ((TypingEffect.charIndex st' = TypingEffect.charIndex st + 1)%Z
       ∨ ((0 < TypingEffect.charIndex st)%Z
          ∧ (TypingEffect.charIndex st' = TypingEffect.charIndex st - 1)%Z))
    ∧ (TypingEffect.isDeleting st = true ∧ TypingEffect.isDeleting st' = false
       ↔ TypingEffect.charIndex st' = 0%Z).
Proof.
  apply (typing_char_index_never_negative
           (TypingEffect.new (Some 1) ["I build"; ""; "I solve"]) 1).
  - reflexivity.
  - discriminate.
Defined.

(** With no word at all the first step throws: [words[0]] is undefined. *)
Example typing_without_words_throws :
  fst (TypingEffect.type (TypingEffect.new (Some 1) []) (TypingEffect.initial ""))
  = Throw TypeError.
Proof. reflexivity. Qed.

(** ** Loading the file, and the export surface *)

(** Where [module] is defined and [module.exports] is truthy, the export
    statement replaces it by an object whose own properties are exactly
    the seven constructors MobileMenu, SmoothScroll, ScrollHeader,
    ScrollReveal, CursorTrail, TypingEffect and ActiveSectionHighlighter,
    each under its own name.  The declared classes left out are
    PerformanceMonitor and Preloader (and the orchestrator App). *)
Lemma export_statement_gives_the_seven m :
  is_Some (Exports.exports m) →
  ∃ obj,
    Exports.export (Some m) = Some (Exports.Module_object (Some obj))
    ∧ Exports.keys obj
      = ["MobileMenu"; "SmoothScroll"; "ScrollHeader"; "ScrollReveal";
         "CursorTrail"; "TypingEffect"; "ActiveSectionHighlighter"]
    ∧ (∀ key cl, Exports.get obj key = Some cl ↔ (key, cl) ∈ obj)
    ∧ (∀ key cl, (key, cl) ∈ obj → key = Exports.name cl)
    ∧ (∀ cl, cl ∈ Exports.declared →
         (Exports.name cl ∈ Exports.keys obj
          ↔ cl ∉ [Exports.PerformanceMonitor_class; Exports.Preloader_class;
                  Exports.App_class]))
    ∧ filter (λ cl, Exports.get obj (Exports.name cl) = None) Exports.widgets
      = [Exports.PerformanceMonitor_class; Exports.Preloader_class].
Proof.
  destruct m as [[old|]]; intros [? Hm]; [|done]. clear Hm.
  eexists. split; [reflexivity|]. split_and!.
  - reflexivity.
  - intros key cl. split.
    + unfold Exports.get. intros Hget.
      apply fmap_Some in Hget as ([i [k c]] & Hfind & ->).
      apply list_find_Some in Hfind as (Hi & <- & _).
      by eapply list_elem_of_lookup_2.
    + rewrite !elem_of_cons, elem_of_nil.
      intros [[= -> ->]|[[= -> ->]|[[= -> ->]|[[= -> ->]|[[= -> ->]|[[= -> ->]|[[= -> ->]|[]]]]]]]];
        reflexivity.
  - intros key cl. rewrite !elem_of_cons, elem_of_nil.
    intros [[= -> ->]|[[= -> ->]|[[= -> ->]|[[= -> ->]|[[= -> ->]|[[= -> ->]|[[= -> ->]|[]]]]]]]];
      reflexivity.
  - intros cl _. destruct cl; split; intros Hin; try (by vm_compute; set_solver);
      try (exfalso; set_solver); try set_solver.
  - by vm_compute.
Qed.

Lemma export_without_module : Exports.export None = None.
Proof. done. Qed.

Section load_facts.
Import Script.
Variable h : host.
Variable d : App.document.

Lemma keeps_module_bind (m : js state unit) (k : unit → js state unit) :
  keeps_module m → (∀ a, keeps_module (k a)) → keeps_module (m ≫= k).
Proof.
  intros Hm Hk st. rewrite run_bind. specialize (Hm st).
  destruct (m st) as [[a|e] st']; simpl in *; [|done].
  by rewrite Hk.
Qed.

Lemma keeps_module_ret : keeps_module (mret tt).
Proof. done. Qed.

Lemma keeps_module_global defined : keeps_module (global defined).
Proof. by destruct defined. Qed.

Lemma keeps_module_registering {H} (f : H → App.listener) init :
  keeps_module (registering f init).
Proof. intros st. unfold registering. by destruct (init []). Qed.

Lemma keeps_module_revealing init : keeps_module (revealing init).
Proof. intros st. unfold revealing. by destruct (init _). Qed.

Lemma keeps_module_highlighting init : keeps_module (highlighting init).
Proof. intros st. unfold highlighting. by destruct (init _). Qed.

Lemma keeps_module_initComponents : keeps_module (initComponents h d).
Proof.
  unfold initComponents.
  repeat (apply keeps_module_bind; [|intros _]).
  - apply keeps_module_registering.
  - apply keeps_module_registering.
  - unfold new_ScrollHeader. case_match; [apply keeps_module_ret|].
    apply keeps_module_bind; [apply keeps_module_global|intros _].
    apply keeps_module_registering.
  - unfold new_ScrollReveal. case_match; [apply keeps_module_ret|].
    apply keeps_module_bind; [apply keeps_module_global|intros _].
    apply keeps_module_revealing.
  - unfold new_ActiveSectionHighlighter. case_match; [apply keeps_module_ret|].
    apply keeps_module_bind; [apply keeps_module_global|intros _].
    apply keeps_module_highlighting.
Qed.

(** [new App()] does not touch [module]. *)
Lemma keeps_module_new_App : keeps_module (new_App h d).
Proof.
  unfold new_App. destruct (document_readyState h) as [[]|]; try done;
    apply keeps_module_initComponents.
Qed.

(** The load goes as [new App()] goes: when that returns the export
    statement runs, when it throws the load ends there and [module] is as
    the host made it. *)
Lemma load_after_new_App st :
  load h d st
  = match new_App h d st with
    | (Return _, st') => export st'
    | (Throw e, st') => (Throw e, st')
    end.
Proof. reflexivity. Qed.

Lemma load_stops_where_new_App_throws st e :
  fst (new_App h d st) = Throw e →
  fst (load h d st) = Throw e ∧ module (snd (load h d st)) = module st.
Proof.
  intros Hthrow. rewrite load_after_new_App.
  pose proof (keeps_module_new_App st) as Hm.
  destruct (new_App h d st) as [[a|e'] st']; simpl in *; [done|].
  by injection Hthrow as ->.
Qed.

(** Where no [document] is defined, [new App()] throws at once. *)
Lemma new_App_without_document st :
  document_readyState h = None → new_App h d st = (Throw ReferenceError, st).
Proof. intros Hdoc. unfold new_App. by rewrite Hdoc. Qed.

(** An [init] of the widgets returns normally. *)
Lemma registering_returns {H} (f : H → App.listener) init st :
  (∀ regs, fst (init regs) = Return tt) → fst (registering f init st) = Return tt.
Proof.
  intros Hinit. unfold registering. specialize (Hinit []).
  by destruct (init []).
Qed.

Lemma MobileMenu_init_returns w regs : fst (MobileMenu.init w regs) = Return tt.
Proof. destruct w as [[t|] [m|] items]; done. Qed.

Lemma SmoothScroll_init_returns anchors regs :
  fst (SmoothScroll.init anchors regs) = Return tt.
Proof. unfold SmoothScroll.init. by rewrite forEach_total. Qed.

Lemma ScrollHeader_init_returns w regs : fst (ScrollHeader.init w regs) = Return tt.
Proof. destruct w as [[hd|] thr]; done. Qed.

Lemma ScrollReveal_init_returns w os : fst (ScrollReveal.init w os) = Return tt.
Proof. unfold ScrollReveal.init. by case_match. Qed.

Lemma ActiveSectionHighlighter_init_returns w os :
  fst (ActiveSectionHighlighter.init w os) = Return tt.
Proof. unfold ActiveSectionHighlighter.init. by case_match. Qed.

(** In a host that defines [document], [window] and
    [IntersectionObserver], as a browser does, [new App()] returns. *)
Lemma new_App_returns_in_browser st :
  is_Some (document_readyState h) →
  has_window h = true → has_IntersectionObserver h = true →
  fst (new_App h d st) = Return tt.
Proof.
  intros [rs Hdoc] Hwin Hio. unfold new_App. rewrite Hdoc.
  assert (fst (initComponents h d st) = Return tt) as Hinit.
  { unfold initComponents, new_MobileMenu, new_SmoothScroll, new_ScrollHeader,
      new_ScrollReveal, new_ActiveSectionHighlighter.
    rewrite Hwin, Hio. cbn [global].
    rewrite run_bind.
    pose proof (registering_returns App.of_menu
                  (MobileMenu.init (App.mobileMenu d)) st
                  (MobileMenu_init_returns _)) as H1.
    destruct (registering App.of_menu _ st) as [[[]|e1] st1]; [clear H1|done].
    rewrite run_bind.
    pose proof (registering_returns App.of_anchor
                  (SmoothScroll.init (App.anchors d)) st1
                  (SmoothScroll_init_returns _)) as H2.
    destruct (registering App.of_anchor _ st1) as [[[]|e2] st2]; [clear H2|done].
    rewrite run_bind.
    assert (∃ st3, (if negb (truthy_ref (ScrollHeader.header (App.scrollHeader d)))
                    then mret ()
                    else mret ();; registering App.of_header
                                     (ScrollHeader.init (App.scrollHeader d))) st2
                   = (Return tt, st3)) as [st3 ->].
    { case_match; [by eexists|]. rewrite run_ret.
      pose proof (registering_returns App.of_header
                    (ScrollHeader.init (App.scrollHeader d)) st2
                    (ScrollHeader_init_returns _)) as H3.
      destruct (registering App.of_header _ st2) as [[[]|e3] st3]; [by eexists|done]. }
    rewrite run_bind.
    assert (∃ st4, (if negb (bool_decide
                               (length (ScrollReveal.elements (App.scrollReveal d)) ≠ 0))
                    then mret ()
                    else mret ();; revealing (ScrollReveal.init (App.scrollReveal d))) st3
                   = (Return tt, st4)) as [st4 ->].
    { case_match; [by eexists|]. rewrite run_ret. unfold revealing.
      pose proof (ScrollReveal_init_returns (App.scrollReveal d)
                    (reveal_observers st3)) as H4.
      destruct (ScrollReveal.init _ _) as [[[]|e4] os]; [by eexists|done]. }
    case_match; [done|]. rewrite run_ret. unfold highlighting.
    pose proof (ActiveSectionHighlighter_init_returns (App.highlighter d)
                  (section_observers st4)) as H5.
    by destruct (ActiveSectionHighlighter.init _ _) as [[[]|e5] os]. }
  by destruct rs.
Qed.

End load_facts.

(** C9, for a host in which the application starts.  The file is loaded
    where [module] is defined and [module.exports] is truthy, and
    [new App()], the statement before the export statement, returns
    normally (it does where [document], [window] and
    [IntersectionObserver] are defined).  Then the load returns normally
    and [module.exports] is an object whose own properties are exactly the
    seven constructors MobileMenu, SmoothScroll, ScrollHeader,
    ScrollReveal, CursorTrail, TypingEffect and ActiveSectionHighlighter,
    each under its own name.  Not every widget class of the file is among
    them: the declared classes left out are PerformanceMonitor and
    Preloader (and the orchestrator App). *)
Theorem exports_are_the_seven_constructors
    (h : Script.host) (d : App.document) (m : Exports.module_object) :
  is_Some (Exports.exports m) →
  fst (Script.new_App h d (Script.start (Some m))) = Return tt →
  ∃ obj st,
    Script.load h d (Script.start (Some m)) = (Return tt, st)
    ∧ Script.exported st = Some obj
    ∧ Exports.keys obj
      = ["MobileMenu"; "SmoothScroll"; "ScrollHeader"; "ScrollReveal";
         "CursorTrail"; "TypingEffect"; "ActiveSectionHighlighter"]
    ∧ (∀ key cl, Exports.get obj key = Some cl ↔ (key, cl) ∈ obj)
    ∧ (∀ key cl, (key, cl) ∈ obj → key = Exports.name cl)
    ∧ (∀ cl, cl ∈ Exports.declared →
         (Exports.name cl ∈ Exports.keys obj
          ↔ cl ∉ [Exports.PerformanceMonitor_class; Exports.Preloader_class;
                  Exports.App_class]))
    ∧ filter (λ cl, Exports.get obj (Exports.name cl) = None) Exports.widgets
      = [Exports.PerformanceMonitor_class; Exports.Preloader_class].
Proof.
  intros Hm Hstart.
  destruct (export_statement_gives_the_seven m Hm) as (obj & Hexport & Hfacts).
  pose proof (keeps_module_new_App h d (Script.start (Some m))) as Hkept.
  exists obj. rewrite load_after_new_App.
  destruct (Script.new_App h d (Script.start (Some m))) as [[[]|e] st];
    simpl in Hstart, Hkept; [|done].
  eexists. split; [reflexivity|]. split; [|exact Hfacts].
  unfold Script.exported. cbn [Script.module]. by rewrite Hkept, Hexport.
Qed.

Lemma exports_are_the_seven_constructors_witness :
  let h := Script.Host (Some Script.complete) true true in
  let d := App.Document (MobileMenu.Widget (Some 1) (Some 2) [3; 4]) [3; 4]
             (ScrollHeader.new (Some 0)) (ScrollReveal.Widget [5; 6])
             (ActiveSectionHighlighter.Widget [7; 8] [3; 4]) in
  let m := Exports.Module_object (Some []) in
  ∃ obj st,
    Script.load h d (Script.start (Some m)) = (Return tt, st)
    ∧ Script.exported st = Some obj
    ∧ Exports.keys obj
      = ["MobileMenu"; "SmoothScroll"; "ScrollHeader"; "ScrollReveal";
         "CursorTrail"; "TypingEffect"; "ActiveSectionHighlighter"]
    ∧ (∀ key cl, Exports.get obj key = Some cl ↔ (key, cl) ∈ obj)
    ∧ (∀ key cl, (key, cl) ∈ obj → key = Exports.name cl)
    ∧ (∀ cl, cl ∈ Exports.declared →
         (Exports.name cl ∈ Exports.keys obj
          ↔ cl ∉ [Exports.PerformanceMonitor_class; Exports.Preloader_class;
                  Exports.App_class]))
    ∧ filter (λ cl, Exports.get obj (Exports.name cl) = None) Exports.widgets
      = [Exports.PerformanceMonitor_class; Exports.Preloader_class].
Proof.
  apply (exports_are_the_seven_constructors
           (Script.Host (Some Script.complete) true true)
           (App.Document (MobileMenu.Widget (Some 1) (Some 2) [3; 4]) [3; 4]
              (ScrollHeader.new (Some 0)) (ScrollReveal.Widget [5; 6])
              (ActiveSectionHighlighter.Widget [7; 8] [3; 4]))
           (Exports.Module_object (Some []))).
  - by eexists.
  - reflexivity.
Defined.

(** C9 as the claim states it, in a host that supports module export and
    has no [document]: Node.js, where [module.exports] starts as an empty
    object.  [new App()] reads [document.readyState] and throws a
    ReferenceError; the load ends there, before the export statement, and
    [module.exports] is still the empty object: no constructor is
    exposed. *)
Lemma load_without_document_exports_nothing :
  let h := Script.Host None false false in
  let d := App.Document (MobileMenu.Widget None None []) []
             (ScrollHeader.new None) (ScrollReveal.Widget [])
             (ActiveSectionHighlighter.Widget [] []) in
  let m := Exports.Module_object (Some []) in
  Script.load h d (Script.start (Some m))
  = (Throw ReferenceError, Script.start (Some m))
  ∧ Script.exported (snd (Script.load h d (Script.start (Some m)))) = Some []
  ∧ Exports.get [] "MobileMenu" = None.
Proof. split_and!; reflexivity. Qed.

(** The same file in a browser page, where [module] is not defined: the
    application starts and nothing is exported. *)
Example load_in_page :
  let h := Script.Host (Some Script.complete) true true in
  let d := App.Document (MobileMenu.Widget (Some 1) (Some 2) [3; 4]) [3; 4]
             (ScrollHeader.new (Some 0)) (ScrollReveal.Widget [5; 6])
             (ActiveSectionHighlighter.Widget [7; 8] [3; 4]) in
  let st := snd (Script.load h d (Script.start None)) in
  fst (Script.load h d (Script.start None)) = Return tt
  ∧ Script.module st = None
  ∧ Script.listeners st = App.initComponents d
  ∧ Script.reveal_observers st = App.reveal_observers d
  ∧ Script.section_observers st = App.section_observers d.
Proof. split_and!; reflexivity. Qed.

(** A host with a document and no [IntersectionObserver] (jsdom): the
    load throws as soon as a widget has something to observe, and exports
    nothing; with nothing to observe it exports. *)
Example load_without_IntersectionObserver :
  let h := Script.Host (Some Script.complete) true false in
  let m := Exports.Module_object (Some []) in
  let d := App.Document (MobileMenu.Widget (Some 1) (Some 2) [3; 4]) [3; 4]
             (ScrollHeader.new (Some 0)) (ScrollReveal.Widget [5; 6])
             (ActiveSectionHighlighter.Widget [7; 8] [3; 4]) in
  let d' := App.Document (MobileMenu.Widget (Some 1) (Some 2) [3; 4]) [3; 4]
              (ScrollHeader.new (Some 0)) (ScrollReveal.Widget [])
              (ActiveSectionHighlighter.Widget [] [3; 4]) in
  fst (Script.load h d (Script.start (Some m))) = Throw ReferenceError
  ∧ Script.exported (snd (Script.load h d (Script.start (Some m)))) = Some []
  ∧ fst (Script.load h d' (Script.start (Some m))) = Return tt
  ∧ Exports.keys <$> Script.exported (snd (Script.load h d' (Script.start (Some m))))
    = Some ["MobileMenu"; "SmoothScroll"; "ScrollHeader"; "ScrollReveal";
            "CursorTrail"; "TypingEffect"; "ActiveSectionHighlighter"].
Proof. split_and!; reflexivity. Qed.

(** ** ActiveSectionHighlighter *)

Section set_active_link_facts.
Import ActiveSectionHighlighter.
Variable href_of : node → option string.
Variable w : widget.

Local Abbreviation setActiveLink := (setActiveLink href_of w).
Local Abbreviation relabel_link := (relabel_link href_of).
Local Abbreviation activate := (activate href_of w).

Lemma setActiveLink_eq id p :
  setActiveLink id p = (Return tt, foldl (relabel_link id) p (navLinks w)).
Proof.
  unfold ActiveSectionHighlighter.setActiveLink.
  rewrite forEach_total.
  - f_equal. apply foldl_ext. intros q link. unfold relabel_link.
    rewrite run_modify. by case_bool_decide.
  - intros link q. rewrite run_modify. by case_bool_decide.
Qed.

Lemma marked_relabel_link id p link c e :
  marked c (relabel_link id p link) e
  ↔ if decide (c = "active" ∧ e = link)
    then href_of link = Some ("#" +:+ id)
    else marked c p e.
Proof.
  unfold relabel_link. cbv zeta. case_bool_decide as Hhref.
  - rewrite marked_add, marked_remove. case_decide; naive_solver.
  - rewrite marked_remove. case_decide; naive_solver.
Qed.

Lemma marked_relabel_links id links p c e :
  marked c (foldl (relabel_link id) p links) e
  ↔ if decide (c = "active" ∧ e ∈ links)
    then href_of e = Some ("#" +:+ id)
    else marked c p e.
Proof.
  revert p. induction links as [|link links IH]; intros p.
  - simpl. rewrite decide_False; [done|]. intros [_ ?%elem_of_nil]. done.
  - cbn [foldl]. rewrite IH.
    destruct (decide (c = "active" ∧ e ∈ links)) as [[-> Hin]|Hnin].
    + rewrite decide_True; [done|]. split; [done|]. by right.
    + rewrite marked_relabel_link.
      destruct (decide (c = "active" ∧ e = link)) as [[-> ->]|Hne].
      * rewrite decide_True; [done|]. split; [done|]. by left.
      * rewrite decide_False; [done|].
        intros [-> [->|?]%elem_of_cons]; tauto.
Qed.

(** C10.  [setActiveLink(id)] returns normally and leaves a navigation
    link marked 'active' if and only if its href is ['#'] followed by
    [id], whatever was marked before; so every link that shares that href
    is marked by the one call.  Other tokens, and elements that are not
    navigation links, are left as they were. *)
Theorem setActiveLink_marks_matching_links (id : string) (p : page) :
  let p' := snd (setActiveLink id p) in
  fst (setActiveLink id p) = Return tt
  ∧ (∀ link, link ∈ navLinks w →
       (marked "active" p' link ↔ href_of link = Some ("#" +:+ id)))
  ∧ (∀ link link',
       link ∈ navLinks w → link' ∈ navLinks w →
       href_of link = Some ("#" +:+ id) → href_of link' = Some ("#" +:+ id) →
       marked "active" p' link ∧ marked "active" p' link')
  ∧ (∀ c e, ¬ (c = "active" ∧ e ∈ navLinks w) → marked c p' e ↔ marked c p e).
Proof.
  intros p'. subst p'. rewrite setActiveLink_eq. cbn [fst snd].
  assert (∀ link, link ∈ navLinks w →
            marked "active" (foldl (relabel_link id) p (navLinks w)) link
            ↔ href_of link = Some ("#" +:+ id)) as Hiff.
  { intros link Hin. by rewrite marked_relabel_links, decide_True. }
  split_and!; [done|done| |].
  - intros link link' Hin Hin' Hhref Hhref'. by rewrite !Hiff.
  - intros c e Hne. by rewrite marked_relabel_links, decide_False.
Qed.

Lemma marked_activate id p link :
  link ∈ navLinks w →
  marked "active" (activate p id) link ↔ href_of link = Some ("#" +:+ id).
Proof.
  intros Hin. unfold ActiveSectionHighlighter.activate.
  rewrite setActiveLink_eq. cbn [snd].
  by rewrite marked_relabel_links, decide_True.
Qed.

End set_active_link_facts.

(** *** Observer callbacks *)

Section highlighter_facts.
Import ActiveSectionHighlighter.
Variable href_of : node → option string.
Variable id_of : node → string.
Variable w : widget.

Local Abbreviation setActiveLink := (setActiveLink href_of w).
Local Abbreviation callback := (callback href_of id_of w).
Local Abbreviation observe_all := (observe_all href_of id_of w).
Local Abbreviation activations := (activations id_of).
Local Abbreviation activate := (activate href_of w).

Lemma callback_eq entries p :
  callback entries p
  = (Return tt, foldl activate p (activations [entries])).
Proof.
  unfold ActiveSectionHighlighter.callback, activations.
  cbn [concat]. rewrite app_nil_r.
  rewrite forEach_total.
  - f_equal. revert p. induction entries as [|[int tg] entries IH]; intros p; [done|].
    cbn [foldl]. rewrite IH. destruct int.
    + by rewrite filter_cons_True by done.
    + by rewrite filter_cons_False by done.
  - intros [[] tg] q; [|done]. cbn [isIntersecting]. by rewrite setActiveLink_eq.
Qed.

Lemma activations_app batches batches' :
  activations (batches ++ batches') = activations batches ++ activations batches'.
Proof. unfold activations. by rewrite concat_app, filter_app, fmap_app. Qed.

Lemma observe_all_eq batches p :
  observe_all batches p = foldl activate p (activations batches).
Proof.
  unfold ActiveSectionHighlighter.observe_all. revert p.
  induction batches as [|entries batches IH]; intros p; [done|].
  cbn [foldl]. rewrite IH, callback_eq. cbn [snd].
  change (entries :: batches) with ([entries] ++ batches).
  by rewrite activations_app, foldl_app.
Qed.

Lemma latest_activation batches :
  latest id_of batches = last (activations batches).
Proof. unfold latest, activations. by rewrite fmap_last. Qed.

(** C3, as the code has it.  Let the navigation links have pairwise
    distinct hrefs and at most one of them be marked 'active' when the
    page loads.  Then after any sequence of observer callbacks at most one
    navigation link is marked 'active'; and once some entry was
    intersecting, the marked links are exactly those whose href is ['#']
    followed by the identifier of the latest intersecting entry, where
    within one callback the entry that comes last in entry order wins. *)
Theorem active_link_follows_latest_section
    (batches : list (list entry)) (p : page) :
  NoDup (href_of <$> navLinks w) →
  length (active_links w p) ≤ 1 →
  length (active_links w (observe_all batches p)) ≤ 1
  ∧ ∀ id, latest id_of batches = Some id →
      ∀ link, link ∈ navLinks w →
        (marked "active" (observe_all batches p) link
         ↔ href_of link = Some ("#" +:+ id)).
Proof.
  intros Hnd Hinit. rewrite observe_all_eq, latest_activation.
  destruct (activations batches) as [|id0 ids] eqn:Hids using rev_ind.
  { split; [done|]. intros id [=]. }
  clear IHids. rewrite foldl_app, last_snoc. cbn [foldl].
  set (q := foldl activate p ids).
  split.
  - unfold active_links.
    apply (at_most_one_preimage href_of (Some ("#" +:+ id0))); [done|].
    intros link Hin. by rewrite marked_activate.
  - intros id [= <-] link Hin. by apply marked_activate.
Qed.

End highlighter_facts.

Lemma setActiveLink_marks_matching_links_witness :
  let href_of := λ link : node, if decide (link = 5) then Some "#work" else Some "#about" in
  let w := ActiveSectionHighlighter.Widget [7; 8] [3; 4; 5] in
  let p := add 5 "active" (Page ∅ "") in
  let p' := snd (ActiveSectionHighlighter.setActiveLink href_of w "about" p) in
  marked "active" p' 3 ∧ marked "active" p' 4 ∧ ¬ marked "active" p' 5.
Proof.
  intros href_of w p p'.
  destruct (setActiveLink_marks_matching_links href_of w "about" p)
    as (_ & Hiff & Hboth & _).
  split_and!.
  - apply (Hboth 3 4); [set_solver|set_solver|reflexivity|reflexivity].
  - apply (Hboth 3 4); [set_solver|set_solver|reflexivity|reflexivity].
  - intros Hmarked. apply (Hiff 5) in Hmarked; [discriminate|set_solver].
Defined.

(** Two navigation links to one section: the one intersecting entry marks
    both. *)
Lemma active_link_not_unique :
  let href_of := λ _ : node, Some "#about" in
  let id_of := λ _ : node, "about" in
  let w := ActiveSectionHighlighter.Widget [7] [3; 4] in
  let p := ActiveSectionHighlighter.observe_all href_of id_of w
             [[Entry true 7]] (Page ∅ "") in
  ¬ (length (ActiveSectionHighlighter.active_links w p) ≤ 1).
Proof. vm_compute. lia. Qed.

Lemma active_link_follows_latest_section_witness :
  let href_of := λ link : node, if decide (link = 3) then Some "#about" else Some "#work" in
  let id_of := λ section : node, if decide (section = 7) then "about" else "work" in
  let w := ActiveSectionHighlighter.Widget [7; 8] [3; 4] in
  let batches := [[Entry true 8]; [Entry false 8; Entry true 8; Entry true 7]; [Entry false 8]] in
  let p := ActiveSectionHighlighter.observe_all href_of id_of w batches (Page ∅ "") in
  length (ActiveSectionHighlighter.active_links w p) ≤ 1
  ∧ ∀ id, ActiveSectionHighlighter.latest id_of batches = Some id →
      ∀ link, link ∈ ActiveSectionHighlighter.navLinks w →
        (marked "active" p link ↔ href_of link = Some ("#" +:+ id)).
Proof.
  apply (active_link_follows_latest_section
           (λ link : node, if decide (link = 3) then Some "#about" else Some "#work")
           (λ section : node, if decide (section = 7) then "about" else "work")
           (ActiveSectionHighlighter.Widget [7; 8] [3; 4])).
  - repeat constructor; set_solver.
  - vm_compute. lia.
Defined.

(** In that run the link to the section reported last is the marked one. *)
Example active_link_last_entry_wins :
  let href_of := λ link : node, if decide (link = 3) then Some "#about" else Some "#work" in
  let id_of := λ section : node, if decide (section = 7) then "about" else "work" in
  let w := ActiveSectionHighlighter.Widget [7; 8] [3; 4] in
  let batches := [[Entry true 8]; [Entry false 8; Entry true 8; Entry true 7]; [Entry false 8]] in
  let p := ActiveSectionHighlighter.observe_all href_of id_of w batches (Page ∅ "") in
  ActiveSectionHighlighter.latest id_of batches = Some "about"
  ∧ ActiveSectionHighlighter.active_links w p = [3].
Proof. by vm_compute. Qed.

(** ** ScrollReveal: the marking is never taken back *)

Section keeps_visible_facts.
Import ScrollReveal.

Lemma keeps_ret {A} (a : A) : keeps_visible (mret a).
Proof. by intros p e. Qed.

Lemma keeps_throw {A} ex : keeps_visible (throw (A := A) ex).
Proof. by intros p e. Qed.

Lemma keeps_deref {A} (r : option A) : keeps_visible (deref r).
Proof. destruct r; [apply keeps_ret|apply keeps_throw]. Qed.

Lemma keeps_gets {A} (f : page → A) : keeps_visible (gets f).
Proof. by intros p e. Qed.

Lemma keeps_bind {A B} (m : js page A) (k : A → js page B) :
  keeps_visible m → (∀ a, keeps_visible (k a)) → keeps_visible (m ≫= k).
Proof.
  intros Hm Hk p e Hp. rewrite run_bind. specialize (Hm p e Hp).
  destruct (m p) as [[a|ex] p']; [by apply Hk|done].
Qed.

Lemma keeps_forEach {A} (f : A → js page unit) (l : list A) :
  (∀ x, keeps_visible (f x)) → keeps_visible (forEach f l).
Proof.
  intros Hf. induction l as [|x l IH]; [apply keeps_ret|].
  cbn [forEach]. apply keeps_bind; [apply Hf|by intros _].
Qed.

Lemma keeps_add e c : keeps_visible (modify (add e c)).
Proof. intros p e' Hp. apply marked_add. by right. Qed.

Lemma keeps_remove e c : c ≠ "visible" → keeps_visible (modify (remove e c)).
Proof. intros Hc p e' Hp. apply marked_remove. split; [done|]. by intros [_ ?]. Qed.

Lemma keeps_toggle e c : c ≠ "visible" → keeps_visible (modify (DOM.toggle e c)).
Proof.
  intros Hc p e' Hp. apply marked_toggle. rewrite decide_False; [done|].
  by intros [_ ?].
Qed.

Lemma keeps_set_overflow v : keeps_visible (modify (set_overflow v)).
Proof. by intros p e. Qed.

(** One step of a proof that follows the shape of the script. *)
Ltac keeps_step :=
  lazymatch goal with
  | |- keeps_visible (mbind _ _) => apply keeps_bind; [|intros ?]
  | |- keeps_visible (mret _) => apply keeps_ret
  | |- keeps_visible (throw _) => apply keeps_throw
  | |- keeps_visible (deref _) => apply keeps_deref
  | |- keeps_visible (gets _) => apply keeps_gets
  | |- keeps_visible (modify (add _ _)) => apply keeps_add
  | |- keeps_visible (modify (remove _ _)) => apply keeps_remove; discriminate
  | |- keeps_visible (modify (DOM.toggle _ _)) => apply keeps_toggle; discriminate
  | |- keeps_visible (modify (set_overflow _)) => apply keeps_set_overflow
  | |- keeps_visible (forEach _ _) => apply keeps_forEach; intros ?
  | |- keeps_visible (if ?b then _ else _) => destruct b
  end.

Ltac keeps := repeat keeps_step.

Lemma keeps_toggleMenu w : keeps_visible (MobileMenu.toggleMenu w).
Proof. unfold MobileMenu.toggleMenu. keeps. Qed.

Lemma keeps_closeMenu w : keeps_visible (MobileMenu.closeMenu w).
Proof. unfold MobileMenu.closeMenu. keeps. Qed.

Lemma keeps_menu_call w ev l : keeps_visible (MobileMenu.call w ev l).
Proof.
  destruct l; unfold MobileMenu.call.
  - apply keeps_toggleMenu.
  - apply keeps_closeMenu.
  - keeps; apply keeps_closeMenu.
  - destruct ev; keeps; apply keeps_closeMenu.
Qed.

Lemma keeps_on_scroll w y : keeps_visible (ScrollHeader.on_scroll w y).
Proof. unfold ScrollHeader.on_scroll. keeps. Qed.

Lemma keeps_reveal entries : keeps_visible (callback entries).
Proof. unfold callback. keeps. Qed.

Lemma keeps_setActiveLink href_of w id :
  keeps_visible (ActiveSectionHighlighter.setActiveLink href_of w id).
Proof. unfold ActiveSectionHighlighter.setActiveLink. keeps. Qed.

Lemma keeps_highlight href_of id_of w entries :
  keeps_visible (ActiveSectionHighlighter.callback href_of id_of w entries).
Proof.
  unfold ActiveSectionHighlighter.callback. keeps. apply keeps_setActiveLink.
Qed.

End keeps_visible_facts.

(** *** Timers leave alone what the callback leaves alone *)

Section debounce_user_facts.
Import Debounce.
Context {A U : Type} (func : A → U → U).
Variable P : U → Prop.
Hypothesis func_keeps : ∀ a u, P u → P (func a u).
Implicit Types (w : world A U).

Lemma user_clearTimeout h w : user (clearTimeout h w) = user w.
Proof. by destruct h. Qed.

Lemma user_executedFunction wait a w : user (executedFunction wait a w) = user w.
Proof. unfold executedFunction; simpl. apply user_clearTimeout. Qed.

Lemma later_keeps a w : P (user w) → P (user (later func a w)).
Proof.
  intros Hw. unfold later, call_func; simpl. apply func_keeps.
  by rewrite user_clearTimeout.
Qed.

Lemma run_timers_keeps ts w : P (user w) → P (user (run_timers func ts w)).
Proof.
  revert w. induction ts as [|t ts IH]; intros w Hw; [done|].
  simpl. apply IH. destruct (is_pending (handle t) w); [|done].
  unfold fire. by apply later_keeps.
Qed.

Lemma settle_keeps w : P (user w) → P (user (settle func w)).
Proof. apply run_timers_keeps. Qed.

Lemma advance_keeps ms w : P (user w) → P (user (advance func ms w)).
Proof.
  intros Hw. unfold advance.
  induction ms as [|ms IH]; simpl; [by apply settle_keeps|].
  unfold tick. by apply settle_keeps.
Qed.

End debounce_user_facts.

(** *** The whole page *)

Section app_facts.
Import App.
Variable querySelector : string → SmoothScroll.query.
Variable href_of : node → option string.
Variable id_of : node → string.
Variable offsetTop : node → Z.
Variable d : document.

Local Abbreviation world := (Debounce.world unit store).
Local Abbreviation step := (step querySelector href_of id_of offsetTop d).
Local Abbreviation run := (run querySelector href_of id_of offsetTop d).
Local Abbreviation call := (call querySelector href_of offsetTop d).
Local Abbreviation dispatch := (dispatch querySelector href_of offsetTop d).

Implicit Types (w : world) (e : node).

Lemma on_dom_keeps (m : js page unit) w e :
  ScrollReveal.keeps_visible m →
  visible_now w e → visible_now (snd (on_dom m w)) e.
Proof.
  intros Hm Hw. unfold on_dom, visible_now in *.
  specialize (Hm _ _ Hw). by destruct (m _) as [r p].
Qed.

Lemma call_keeps ev l w e :
  visible_now w e → visible_now (snd (call ev l w)) e.
Proof.
  intros Hw. destruct l as [l|[a]|[wait]]; unfold App.call.
  - apply on_dom_keeps; [apply keeps_menu_call|done].
  - done.
  - unfold visible_now, modify; cbn [snd].
    by rewrite user_executedFunction.
Qed.

Lemma dispatch_keeps ev w e :
  visible_now w e → visible_now (dispatch ev w) e.
Proof.
  unfold App.dispatch, call_all.
  generalize (listeners_for (initComponents d) ev). intros ls. revert w.
  induction ls as [|l ls IH]; intros w Hw; [done|].
  cbn [foldl]. apply IH. by apply call_keeps.
Qed.

Lemma header_callback_keeps e (a : unit) (st : store) :
  ScrollReveal.visible (dom st) e →
  ScrollReveal.visible (dom (header_callback d a st)) e.
Proof. intros Hst. by apply keeps_on_scroll. Qed.

Lemma step_keeps o w e : visible_now w e → visible_now (step w o) e.
Proof.
  intros Hw. destruct o as [ev|y|ms|entries|entries]; unfold App.step.
  - by apply dispatch_keeps.
  - by apply dispatch_keeps.
  - unfold visible_now.
    apply (advance_keeps _ (λ st, ScrollReveal.visible (dom st) e)); [|done].
    intros a st. apply header_callback_keeps.
  - destruct (reveal_observers d); [done|].
    apply on_dom_keeps; [apply keeps_reveal|done].
  - destruct (section_observers d); [done|].
    apply on_dom_keeps; [apply keeps_highlight|done].
Qed.

Lemma run_keeps os w e : visible_now w e → visible_now (run os w) e.
Proof.
  revert w. induction os as [|o os IH]; intros w Hw; [done|].
  cbn [App.run foldl]. apply IH. by apply step_keeps.
Qed.

Lemma anchors_registered anchors regs :
  snd (SmoothScroll.init anchors regs)
  = regs ++ ((λ a, Reg (OnNode a) "click" (SmoothScroll.anchor_listener a)) <$> anchors).
Proof.
  unfold SmoothScroll.init. revert regs.
  induction anchors as [|a anchors IH]; intros regs.
  - by rewrite app_nil_r.
  - cbn [forEach]. rewrite run_modify, IH, <-app_assoc. done.
Qed.

(** A resize reaches no listener of the page. *)
Lemma resize_runs_nothing : listeners_for (initComponents d) Resize = [].
Proof.
  apply listeners_for_no_type. unfold initComponents, relabel.
  rewrite !Forall_app, !Forall_fmap. split_and!.
  - destruct (mobileMenu d) as [[t|] [m|] items]; try by constructor.
    change (snd _) with (MobileMenu.registered (MobileMenu.Widget (Some t) (Some m) items)).
    rewrite registered_eq. rewrite Forall_cons, Forall_app, Forall_fmap.
    split_and!; [done| |by repeat constructor].
    by apply Forall_forall.
  - rewrite anchors_registered, app_nil_l, Forall_fmap. by apply Forall_forall.
  - destruct (scrollHeader d) as [[h|] thr]; by repeat constructor.
Qed.

(** C7.  Once an element carries 'visible' it carries it for good:
    whatever happens to the page afterwards -- events dispatched to the
    listeners of the five widgets (clicks, keys, scroll, resize), timers
    firing, callbacks of either observer -- the marking stays.  The set of
    elements marked visible only grows along the sequence. *)
Theorem visible_marking_is_monotone
    (before after : list occurrence) (w : world) (e : node) :
  visible_now (run before w) e →
  visible_now (run (before ++ after) w) e.
Proof.
  intros Hw. unfold App.run. rewrite foldl_app. by apply run_keeps.
Qed.

End app_facts.

Lemma visible_marking_is_monotone_witness :
  App.visible_now
    (App.run (λ _, SmoothScroll.NoMatch) (λ _, Some "#about") (λ _, "about") (λ _, 0%Z)
       (App.Document (MobileMenu.Widget (Some 1) (Some 2) [3; 4]) [3; 4]
          (ScrollHeader.new (Some 0)) (ScrollReveal.Widget [5; 6])
          (ActiveSectionHighlighter.Widget [7; 8] [3; 4]))
       ([App.Revealed [Entry true 5]]
        ++ [App.Dispatched Resize; App.Scrolled (Q2Qc 150); App.Elapsed 10;
            App.Dispatched (Click [1; 0]); App.Intersected [Entry true 7];
            App.Revealed [Entry false 5; Entry true 6]])
       (App.loaded (Page ∅ "") (Q2Qc 0)))
    5.
Proof.
  apply visible_marking_is_monotone.
  apply (bool_decide_unpack _). vm_compute. reflexivity.
Defined.

(** The scenario of the specification on the whole page: scrolling to
    offset 150 and, once the header followed, back to offset 50 adds the
    marking and removes it again; two scroll events 9 ms apart run the
    callback once. *)
Example page_scroll_down_and_up :
  let d := App.Document (MobileMenu.Widget (Some 1) (Some 2) [3; 4]) [3; 4]
             (ScrollHeader.new (Some 0)) (ScrollReveal.Widget [5; 6])
             (ActiveSectionHighlighter.Widget [7; 8] [3; 4]) in
  let run os :=
    App.run (λ _, SmoothScroll.NoMatch) (λ _, Some "#about") (λ _, "about") (λ _, 0%Z)
      d os (App.loaded (Page ∅ "") (Q2Qc 0)) in
  let scrolled w := ScrollHeader.scrolled (App.scrollHeader d) (App.dom (Debounce.user w)) in
  scrolled (run [App.Scrolled (Q2Qc 150); App.Elapsed 9]) = false
  ∧ scrolled (run [App.Scrolled (Q2Qc 150); App.Elapsed 10]) = true
  ∧ scrolled (run [App.Scrolled (Q2Qc 150); App.Elapsed 10;
                   App.Scrolled (Q2Qc 50); App.Elapsed 10]) = false
  ∧ Debounce.calls (run [App.Scrolled (Q2Qc 120); App.Elapsed 9;
                         App.Scrolled (Q2Qc 150); App.Elapsed 30]) = [(19, tt)].
Proof. by vm_compute. Qed.

(** * Further properties *)

(** ** debounce under any schedule of calls *)

Section debounce_schedule_facts.
Import Debounce.
Context {A U : Type} (func : A → U → U).
Implicit Types (w : world A U) (a : A) (phases : list (phase A)).

(** A timer that is overdue when the event loop gets free runs then. *)
Lemma settle_overdue w h D a :
  pending w = [Timer h D a] → timeout w = Some h → D ≤ now w →
  settle func w
  = {| now := now w; next_handle := next_handle w; pending := [];
       timeout := timeout w; user := func a (user w);
       calls := calls w ++ [(now w, a)] |}.
Proof.
  intros Hp Ht HD. unfold settle. rewrite Hp.
  rewrite filter_cons_True by (simpl; lia). rewrite filter_nil. simpl.
  unfold is_pending. rewrite Hp. rewrite bool_decide_eq_true_2 by set_solver.
  unfold fire, later, set_pending, call_func; simpl.
  rewrite Hp, Ht. simpl.
  rewrite filter_cons_False by (simpl; tauto). by rewrite filter_nil.
Qed.

Lemma ticks_idle d w :
  pending w = [] → Nat.iter d (tick func) w = set_now (now w + d) w.
Proof.
  intros Hp. rewrite <-(advance_idle func d w Hp). unfold advance.
  rewrite settle_nothing_due; [done|]. rewrite Hp. constructor.
Qed.

(** What [d] milliseconds of a free event loop do to the one timer. *)
Lemma advance_waiting w h D a d :
  pending w = [Timer h D a] → timeout w = Some h →
  advance func d w
  = if decide (D ≤ now w + d)
    then {| now := now w + d; next_handle := next_handle w; pending := [];
            timeout := timeout w; user := func a (user w);
            calls := calls w ++ [(now w `max` D, a)] |}
    else set_now (now w + d) w.
Proof.
  intros Hp Ht. destruct (decide (D ≤ now w)) as [Hover|Hlater].
  - rewrite decide_True by lia. unfold advance.
    rewrite (settle_overdue w h D a) by done.
    rewrite ticks_idle by done. unfold set_now; simpl.
    by rewrite Nat.max_l by lia.
  - assert (armed (D - now w) (now w) a w) as Harmed.
    { split; [done|]. exists h. split; [|done]. rewrite Hp. do 2 f_equal. lia. }
    rewrite (advance_armed func _ _ _ _ d Harmed).
    repeat case_decide; try lia; [done|].
    rewrite Nat.max_r by lia. do 4 f_equal. lia.
Qed.

Lemma runs_length delay T waiting phases :
  length (runs delay T waiting phases)
  ≤ length (called phases) + match waiting with Some _ => 1 | None => 0 end.
Proof.
  revert T waiting.
  induction phases as [|[a|d|d] phases IH]; intros T waiting; [simpl; lia|..].
  - cbn [runs]. specialize (IH T (Some (T + delay, a))).
    unfold called in *. rewrite bind_cons, length_app. simpl in *. lia.
  - cbn [runs]. specialize (IH (T + d) waiting).
    unfold called in *. by rewrite bind_cons.
  - cbn [runs]. unfold called in *. rewrite bind_cons, app_nil_l.
    destruct waiting as [[due a]|].
    + case_decide.
      * specialize (IH (T + d) None). simpl in *. lia.
      * apply (IH (T + d) (Some (due, a))).
    + apply (IH (T + d) None).
Qed.

Lemma play_cons wait ph phases w :
  play func wait (ph :: phases) w = play func wait phases (during func wait w ph).
Proof. done. Qed.

Lemma duration_cons (ph : phase A) phases :
  duration (ph :: phases)
  = match ph with Call _ => 0 | Busy d | Idle d => d end + duration phases.
Proof. unfold duration. by rewrite fmap_cons. Qed.

(** The timer table follows the one waiting call, phase by phase. *)
Lemma play_runs wait phases w waiting :
  awaits waiting w →
  calls (play func wait phases w)
  = calls w ++ runs (timer_delay wait) (now w) waiting phases
  ∧ user (play func wait phases w)
    = foldl (λ u c, func c.2 u) (user w)
        (runs (timer_delay wait) (now w) waiting phases)
  ∧ now (play func wait phases w) = now w + duration phases
  ∧ length (pending (play func wait phases w)) ≤ 1.
Proof.
  revert w waiting.
  induction phases as [|[a|d|d] phases IH]; intros w waiting Hw.
  - cbn [play foldl runs]. rewrite app_nil_r. split_and!; try done.
    destruct waiting as [[due a]|]; simpl in Hw.
    + destruct Hw as (h & -> & _). done.
    + rewrite Hw. simpl. lia.
  - rewrite play_cons, duration_cons. cbn [during runs].
    destruct (executedFunction_arms func wait a w) as ([Hnow Harmed] & Hu & Hc).
    { destruct waiting as [[due a']|]; simpl in Hw; [|by left].
      destruct Hw as (h & Hp & Ht). right. eauto. }
    destruct (IH (executedFunction wait a w) (Some (now w + timer_delay wait, a)))
      as (Hcalls & Huser & Hclock & Hone); [exact Harmed|].
    rewrite Hnow in Hcalls, Huser, Hclock. rewrite Hc in Hcalls. rewrite Hu in Huser.
    done.
  - rewrite play_cons, duration_cons. cbn [during runs].
    destruct (IH (set_now (now w + d) w) waiting) as (Hcalls & Huser & Hclock & Hone).
    { by destruct waiting as [[due a]|]. }
    cbn [set_now now calls user] in Hcalls, Huser, Hclock.
    split_and!; [done..| |done]. lia.
  - rewrite play_cons, duration_cons. cbn [during runs].
    destruct waiting as [[due a]|]; cbn [awaits] in Hw.
    + destruct Hw as (h & Hp & Ht).
      rewrite (advance_waiting w h due a d Hp Ht). case_decide.
      * lazymatch goal with
        | |- context [play func wait phases ?next] =>
            destruct (IH next None) as (Hcalls & Huser & Hclock & Hone); [done|]
        end.
        cbn [now calls user] in Hcalls, Huser, Hclock.
        split_and!; [|done| |done].
        -- by rewrite Hcalls, <-app_assoc.
        -- lia.
      * destruct (IH (set_now (now w + d) w) (Some (due, a)))
          as (Hcalls & Huser & Hclock & Hone); [simpl; eauto|].
        cbn [set_now now calls user] in Hcalls, Huser, Hclock.
        split_and!; [done..| |done]. lia.
    + rewrite (advance_idle func d w Hw).
      destruct (IH (set_now (now w + d) w) None)
        as (Hcalls & Huser & Hclock & Hone); [done|].
      cbn [set_now now calls user] in Hcalls, Huser, Hclock.
      split_and!; [done..| |done]. lia.
Qed.

(** A burst is the schedule in which every call has a task of its own and
    the event loop is free in between. *)
Lemma burst_play wait more w :
  burst func wait more w = play func wait (burst_phases more) w.
Proof.
  revert w. induction more as [|[gap a] more IH]; intros w; [done|].
  unfold burst_phases. rewrite bind_cons. cbn [burst foldl play app during].
  apply IH.
Qed.

(** X1.  The wrapper under any schedule, from a state with no timer
    pending.  A schedule is made of calls of the wrapper by the running
    task, of stretches in which a task keeps running, and of stretches in
    which the event loop is free.  The callback has run for exactly those
    calls whose timer came due, with the event loop free, before the next
    call: once each, with that call's arguments, in order, at the due time
    or, when the loop was busy then, as soon as it is free.  A call that is
    followed by another call before the loop was free at its due time
    never runs; so of two calls in one task only the second can run,
    whatever [wait] is.  The state the callback acts on is the result of
    those runs; there are never more runs than calls; at most one timer is
    pending; the clock has moved by the length of the schedule. *)
Theorem debounce_runs_the_unsuperseded_calls
    (wait : nat) (w0 : world A U) (phases : list (phase A)) :
  pending w0 = [] →
  let w := play func wait phases w0 in
  let ran := runs (timer_delay wait) (now w0) None phases in
  calls w = calls w0 ++ ran
  ∧ user w = foldl (λ u c, func c.2 u) (user w0) ran
  ∧ length ran ≤ length (called phases)
  ∧ length (pending w) ≤ 1
  ∧ now w = now w0 + duration phases.
Proof.
  intros Hquiet w ran.
  destruct (play_runs wait phases w0 None Hquiet) as (Hcalls & Huser & Hclock & Hone).
  split_and!; try done.
  pose proof (runs_length (timer_delay wait) (now w0) None phases) as Hlen.
  rewrite Nat.add_0_r in Hlen. exact Hlen.
Qed.

End debounce_schedule_facts.

Lemma debounce_runs_the_unsuperseded_calls_witness :
  let func := λ (a : string) (log : list string), log ++ [a] in
  let phases :=
    [Debounce.Call "a"; Debounce.Call "b"; Debounce.Idle 5; Debounce.Call "c";
     Debounce.Busy 30; Debounce.Idle 0; Debounce.Call "d"; Debounce.Idle 20;
     Debounce.Call "e"; Debounce.Busy 25; Debounce.Call "f"] in
  let w := Debounce.play func 20 phases (Debounce.fresh 100 1 []) in
  let ran := Debounce.runs (Debounce.timer_delay 20) 100 None phases in
  Debounce.calls w = [] ++ ran
  ∧ Debounce.user w = foldl (λ u c, func c.2 u) [] ran
  ∧ length ran ≤ length (Debounce.called phases)
  ∧ length (Debounce.pending w) ≤ 1
  ∧ Debounce.now w = 100 + Debounce.duration phases.
Proof.
  apply (debounce_runs_the_unsuperseded_calls
           (λ (a : string) (log : list string), log ++ [a])
           20 (Debounce.fresh 100 1 [])).
  reflexivity.
Defined.

(** In that schedule "a" is replaced by "b" in the same task and "b" by "c"
    5 ms later; "c" is overdue when its task ends and runs then; "d" runs
    when due; "e" is replaced by "f" in a task that took longer than the
    wait; "f" is still waiting. *)
Example debounce_schedule_runs :
  let func := λ (a : string) (log : list string), log ++ [a] in
  Debounce.calls
    (Debounce.play func 20
       [Debounce.Call "a"; Debounce.Call "b"; Debounce.Idle 5; Debounce.Call "c";
        Debounce.Busy 30; Debounce.Idle 0; Debounce.Call "d"; Debounce.Idle 20;
        Debounce.Call "e"; Debounce.Busy 25; Debounce.Call "f"]
       (Debounce.fresh 100 1 []))
  = [(135, "c"); (155, "d")].
Proof. reflexivity. Qed.

(** With [wait = 0], two calls in one task run the callback once, for the
    second; in two tasks, with the loop free in between, once for each. *)
Example debounce_wait_0 :
  let func := λ (a : string) (log : list string), log ++ [a] in
  Debounce.user
    (Debounce.play func 0 [Debounce.Call "a"; Debounce.Call "b"; Debounce.Idle 0]
       (Debounce.fresh 0 1 [])) = ["b"]
  ∧ Debounce.user
      (Debounce.play func 0
         [Debounce.Call "a"; Debounce.Idle 0; Debounce.Call "b"; Debounce.Idle 0]
         (Debounce.fresh 0 1 [])) = ["a"; "b"].
Proof. split; reflexivity. Qed.

(** ** MobileMenu under any events *)

Section mobile_menu_invariant_facts.
Import MobileMenu.
Variables (t m : node) (items : list node).
Hypothesis distinct : t ≠ m.

Local Abbreviation w := (Widget (Some t) (Some m) items).

Lemma marked_opened p e :
  marked "active" (opened w p) e
  ↔ if decide (e = t ∨ e = m) then ¬ marked "active" p e else marked "active" p e.
Proof.
  unfold opened. rewrite toggleMenu_eq. cbn [snd]. cbv zeta.
  rewrite marked_set_overflow, marked_toggle.
  destruct (decide (m = e ∧ "active" = "active")) as [[<- _]|Hm].
  - rewrite marked_toggle, decide_False by (intros [? _]; done).
    by rewrite decide_True by (by right).
  - rewrite marked_toggle.
    destruct (decide (t = e ∧ "active" = "active")) as [[<- _]|Ht].
    + by rewrite decide_True by (by left).
    + rewrite decide_False; [done|]. intros [->| ->]; [by apply Ht|by apply Hm].
Qed.

Lemma coherent_opened p : coherent t m p → coherent t m (opened w p).
Proof.
  intros [Hsync _]. split.
  - rewrite !marked_opened.
    rewrite (decide_True (P := t = t ∨ _)) by (by left).
    rewrite (decide_True (P := m = t ∨ _)) by (by right).
    tauto.
  - rewrite <-(is_open_marked t m items), overflow_opened.
    destruct (is_open w (opened w p)); split; done.
Qed.

Lemma coherent_closed p : coherent t m (closed w p).
Proof.
  unfold closed. rewrite closeMenu_eq. cbn [snd]. split.
  - rewrite !marked_set_overflow, !marked_remove. tauto.
  - rewrite marked_set_overflow, marked_remove. cbn [overflow set_overflow].
    split; [done|tauto].
Qed.

Lemma coherent_call ev l p : coherent t m p → coherent t m (snd (call w ev l p)).
Proof.
  intros Hp.
  assert (l = toggle_click ∨ l ≠ toggle_click) as [->|Hl]
    by (destruct l; (by left) || (by right)).
  - rewrite call_toggle_click. by apply coherent_opened.
  - destruct (call_closes_or_skips t m items ev l p Hl) as [->| ->];
      [done|apply coherent_closed].
Qed.

Lemma coherent_dispatch ev p : coherent t m p → coherent t m (dispatch w ev p).
Proof.
  unfold dispatch, call_all.
  generalize (listeners_for (registered w) ev). intros ls. revert p.
  induction ls as [|l ls IH]; intros p Hp; [done|].
  cbn [foldl]. apply IH. by apply coherent_call.
Qed.

(** X2.  Whatever is dispatched -- any clicks on any path, any keys, in
    any order -- the toggle control and the menu carry 'active' together
    and the body overflow is ['hidden'] exactly while the menu is open,
    provided that was so on the page as loaded and the toggle control and
    the menu are two elements. *)
Theorem mobile_menu_stays_coherent (evs : list event) (p : page) :
  coherent t m p → coherent t m (run w evs p).
Proof.
  revert p. induction evs as [|ev evs IH]; intros p Hp; [done|].
  cbn [run foldl]. apply IH. by apply coherent_dispatch.
Qed.

(** X3.  Events that are none of the menu's business change nothing: a
    click inside the menu that is neither on a navigation link nor on the
    toggle control, a key other than Escape, a scroll, a resize, a load. *)
Theorem mobile_menu_ignores_other_events (ev : event) (p : page) :
  (match ev with
   | Click path => ((t ∉ path) ∧ (m ∈ path) ∧ (∀ i, i ∈ items → i ∉ path))
   | Keydown key _ => (key ≠ "Escape")
   | Scroll | Resize | Load => True
   end) →
  dispatch w ev p = p.
Proof.
  intros Hev. unfold dispatch.
  assert (∀ ev', type_of ev' ≠ "click" → type_of ev' ≠ "keydown" →
            listeners_for (registered w) ev' = []) as Hother.
  { intros ev' Hclick Hkey. apply listeners_for_no_type.
    rewrite registered_eq, Forall_cons, Forall_app, Forall_fmap.
    split_and!; [done| |by repeat constructor].
    by apply Forall_forall. }
  destruct ev as [path|key path| | |]; try by rewrite Hother.
  - destruct Hev as (Ht & Hm & Hitems).
    rewrite click_listeners, bind_nothing.
    + unfold call_all. cbn [app foldl]. rewrite call_document_click.
      unfold contains_target. cbn [path_of].
      by rewrite (bool_decide_eq_true_2 (m ∈ path)).
    + apply Forall_forall. intros n Hn.
      rewrite node_listeners, decide_False by (done || (intros [-> _]; done)).
      apply no_elements. intros h Hh.
      apply item_listeners in Hh as (_ & _ & i & Hi & [= ->]). by apply (Hitems i).
  - rewrite keydown_listeners by done.
    unfold call_all. cbn [foldl]. rewrite call_document_keydown.
    by rewrite bool_decide_eq_false_2.
Qed.

End mobile_menu_invariant_facts.

Lemma mobile_menu_stays_coherent_witness :
  MobileMenu.coherent 1 2
    (MobileMenu.run (MobileMenu.Widget (Some 1) (Some 2) [3; 4])
       [Click [1; 3; 0]; Keydown "Escape" [0]; Click [1; 0]; Click [1; 0]; Click [1; 0]]
       (Page ∅ "")).
Proof.
  apply mobile_menu_stays_coherent; [lia|].
  split; [by vm_compute|]. split; [discriminate|]. by vm_compute.
Defined.

Lemma mobile_menu_ignores_other_events_witness :
  MobileMenu.dispatch (MobileMenu.Widget (Some 1) (Some 2) [3; 4])
    (Click [5; 2; 0]) (add 2 "active" (Page ∅ "hidden"))
  = add 2 "active" (Page ∅ "hidden").
Proof.
  apply (mobile_menu_ignores_other_events 1 2 [3; 4]); [lia|].
  split_and!; [set_solver..|]. intros i Hi. set_solver.
Defined.

(** ** The observers *)

Section observer_facts.

Lemma observe_each (targets : list node) (o : observer) :
  forEach observe targets o = (Return tt, Observing (opts o) (observed o ++ targets)).
Proof.
  revert o. induction targets as [|e targets IH]; intros [op obs].
  - cbn [forEach opts observed]. by rewrite app_nil_r.
  - rewrite forEach_cons. unfold observe at 1, modify.
    rewrite IH. cbn [opts observed]. by rewrite <-app_assoc.
Qed.

(** X4.  Where there is something to watch, each of the two widgets
    creates one observer and hands it every element its selector found,
    each once and in document order: ScrollReveal with threshold 0.1 and
    root margin ["0px 0px -100px 0px"], ActiveSectionHighlighter (which also
    needs a navigation link) with threshold 0.3 and root margin
    ["-100px 0px -66% 0px"]. *)
Theorem observers_watch_every_element :
  (∀ w os,
     ScrollReveal.elements w ≠ [] →
     ScrollReveal.init w os
     = (Return tt,
        os ++ [Observing (Options (Q2Qc 0.1) "0px 0px -100px 0px")
                 (ScrollReveal.elements w)]))
  ∧ (∀ w os,
       ActiveSectionHighlighter.sections w ≠ [] →
       ActiveSectionHighlighter.navLinks w ≠ [] →
       ActiveSectionHighlighter.init w os
       = (Return tt,
          os ++ [Observing (Options (Q2Qc 0.3) "-100px 0px -66% 0px")
                   (ActiveSectionHighlighter.sections w)])).
Proof.
  split.
  - intros [els] os Hne. cbn [ScrollReveal.elements] in Hne.
    unfold ScrollReveal.init. cbn [ScrollReveal.elements].
    rewrite bool_decide_eq_true_2 by (by destruct els). cbn [negb].
    by rewrite observe_each.
  - intros [secs links] os Hsecs Hlinks.
    cbn [ActiveSectionHighlighter.sections ActiveSectionHighlighter.navLinks] in *.
    unfold ActiveSectionHighlighter.init.
    cbn [ActiveSectionHighlighter.sections ActiveSectionHighlighter.navLinks].
    rewrite (bool_decide_eq_true_2 (length secs ≠ 0)) by (by destruct secs).
    rewrite (bool_decide_eq_true_2 (length links ≠ 0)) by (by destruct links).
    cbn [negb orb]. by rewrite observe_each.
Qed.

(** X5.  A callback of ScrollReveal's observer returns normally and gives
    'visible' to exactly the targets of its intersecting entries: an element
    carries a token afterwards if and only if it carried it before or the
    token is 'visible' and some intersecting entry has the element as its
    target.  An entry that reports the end of an intersection does nothing. *)
Theorem reveal_marks_intersecting_targets (entries : list entry) (p : page) :
  fst (ScrollReveal.callback entries p) = Return tt
  ∧ ∀ c e,
      marked c (snd (ScrollReveal.callback entries p)) e
      ↔ marked c p e
        ∨ (c = "visible"
           ∧ ∃ entry, entry ∈ entries ∧ isIntersecting entry = true ∧ target entry = e).
Proof.
  unfold ScrollReveal.callback. rewrite forEach_total.
  2:{ intros [[] tg] q; done. }
  split; [done|]. cbn [snd]. revert p.
  induction entries as [|[int tg] entries IH]; intros p c e.
  - cbn [foldl]. split; [by left|]. intros [?|(_ & entry & []%elem_of_nil & _)]. done.
  - cbn [foldl]. rewrite IH. destruct int; cbn [isIntersecting target snd].
    + unfold modify. cbn [snd]. rewrite marked_add. split.
      * intros [[[Htg Hc]|Hp]|(-> & entry & Hin & Hint & Htg)].
        -- right. split; [done|]. exists (Entry true tg). split; [by left|done].
        -- by left.
        -- right. split; [done|]. exists entry. split; [by right|done].
      * intros [Hp|(-> & entry & [->|Hin]%elem_of_cons & Hint & Htg)].
        -- left. by right.
        -- left. left. done.
        -- right. split; [done|]. by exists entry.
    + cbn [snd mret js_ret]. split.
      * intros [Hp|(-> & entry & Hin & Hint & Htg)]; [by left|].
        right. split; [done|]. exists entry. split; [by right|done].
      * intros [Hp|(-> & entry & [->|Hin]%elem_of_cons & Hint & Htg)];
          [by left|done|].
        right. split; [done|]. by exists entry.
Qed.

End observer_facts.

Lemma observers_watch_every_element_witness :
  ScrollReveal.init (ScrollReveal.Widget [5; 6]) []
    = (Return tt, [] ++ [Observing (Options (Q2Qc 0.1) "0px 0px -100px 0px") [5; 6]])
  ∧ ActiveSectionHighlighter.init (ActiveSectionHighlighter.Widget [7; 8] [3]) []
    = (Return tt, [] ++ [Observing (Options (Q2Qc 0.3) "-100px 0px -66% 0px") [7; 8]]).
Proof.
  destruct observers_watch_every_element as [Hreveal Hsections]. split.
  - by apply (Hreveal (ScrollReveal.Widget [5; 6])).
  - by apply (Hsections (ActiveSectionHighlighter.Widget [7; 8] [3])).
Defined.

(** ** ActiveSectionHighlighter: what the callbacks leave alone *)

Section highlighter_frame_facts.
Import ActiveSectionHighlighter.
Variable href_of : node → option string.
Variable id_of : node → string.
Variable w : widget.

Local Abbreviation observe_all := (observe_all href_of id_of w).

Lemma marked_activate_other (id : string) (p : page) (c : string) (e : node) :
  ¬ (c = "active" ∧ e ∈ navLinks w) →
  marked c (activate href_of w p id) e ↔ marked c p e.
Proof.
  intros Hne. unfold activate. rewrite setActiveLink_eq. cbn [snd].
  by rewrite marked_relabel_links, decide_False.
Qed.

Lemma activations_none (batches : list (list entry)) :
  Forall (Forall (λ e, isIntersecting e = false)) batches →
  activations id_of batches = [].
Proof.
  intros Hnone. unfold activations.
  induction Hnone as [|entries batches Hentries _ IH]; [done|].
  cbn [concat]. rewrite filter_app, fmap_app, IH, app_nil_r.
  rewrite (no_elements (filter _ entries)); [done|].
  intros e [Hint Hin]%list_elem_of_filter.
  rewrite Forall_forall in Hentries. specialize (Hentries _ Hin). congruence.
Qed.

(** X6.  The section observer's callbacks write nothing but the 'active'
    token of the navigation links: every other token, and every element
    that is not a navigation link, is left as it was.  Callbacks that only
    report sections leaving the viewport change nothing at all, so the link
    marked last stays marked. *)
Theorem highlighter_writes_only_active_links
    (batches : list (list entry)) (p : page) :
  (∀ c e, ¬ (c = "active" ∧ e ∈ navLinks w) →
     marked c (observe_all batches p) e ↔ marked c p e)
  ∧ (Forall (Forall (λ e, isIntersecting e = false)) batches →
     observe_all batches p = p).
Proof.
  rewrite observe_all_eq. split.
  - intros c e Hne. generalize (activations id_of batches). intros ids. revert p.
    induction ids as [|id ids IH]; intros p; [done|].
    cbn [foldl]. by rewrite IH, marked_activate_other.
  - intros Hnone. by rewrite activations_none.
Qed.

(** X7.  When the section that intersected last has no navigation link of
    its own -- no link's href is ['#'] followed by its identifier -- no
    navigation link is marked 'active' afterwards: the link of the section
    before loses its marking. *)
Theorem highlighter_clears_for_unlinked_section
    (batches : list (list entry)) (p : page) (id : string) :
  latest id_of batches = Some id →
  (∀ link, link ∈ navLinks w → href_of link ≠ Some ("#" +:+ id)) →
  active_links w (observe_all batches p) = [].
Proof.
  intros Hlatest Hnone. rewrite observe_all_eq.
  rewrite latest_activation in Hlatest.
  destruct (activations id_of batches) as [|id0 ids _] using rev_ind; [done|].
  rewrite last_snoc in Hlatest. injection Hlatest as ->.
  rewrite foldl_app. cbn [foldl].
  apply no_elements. intros link [Hmarked Hin]%list_elem_of_filter.
  apply marked_activate in Hmarked; [|done]. by apply (Hnone link).
Qed.

End highlighter_frame_facts.

Lemma highlighter_writes_only_active_links_witness :
  let href_of := λ _ : node, Some "#about" in
  let id_of := λ _ : node, "about" in
  let w := ActiveSectionHighlighter.Widget [7] [3; 4] in
  let p := add 3 "active" (Page ∅ "") in
  ActiveSectionHighlighter.observe_all href_of id_of w
    [[Entry false 7]; []; [Entry false 7; Entry false 8]] p = p.
Proof.
  intros href_of id_of w p.
  apply (highlighter_writes_only_active_links href_of id_of w).
  repeat constructor.
Defined.

Lemma highlighter_clears_for_unlinked_section_witness :
  let href_of := λ _ : node, Some "#about" in
  let id_of := λ section : node, if decide (section = 7) then "about" else "contact" in
  let w := ActiveSectionHighlighter.Widget [7; 8] [3; 4] in
  ActiveSectionHighlighter.active_links w
    (ActiveSectionHighlighter.observe_all href_of id_of w
       [[Entry true 7]; [Entry true 8]] (Page ∅ ""))
  = [].
Proof.
  intros href_of id_of w.
  apply (highlighter_clears_for_unlinked_section href_of id_of w _ _ "contact").
  - reflexivity.
  - intros link _. discriminate.
Defined.

(** ** SmoothScroll: every click *)

Section smooth_scroll_total_facts.
Import SmoothScroll.
Variable querySelector : string → query.
Variable href_of : node → option string.
Variable offsetTop : node → Z.

Local Abbreviation click := (click querySelector href_of offsetTop).

(** X8.  Whatever the anchor and the document, a click either leaves both
    the event and the window alone, or returns normally having cancelled
    the default navigation and asked for exactly one smooth scroll, to
    [offsetTop - 100] of the element [$] found for the anchor's href.  The
    handler never scrolls without cancelling the navigation, never cancels
    it without scrolling, and never scrolls twice. *)
Theorem smooth_scroll_click_is_all_or_nothing (anchor : node) :
  snd (click anchor) = untouched
  ∨ ∃ href target,
      href_of anchor = Some href
      ∧ querySelector href = Matched target
      ∧ click anchor
        = (Return tt,
           Effects true [ScrollTo (offsetTop target - 100) "smooth"]).
Proof.
  destruct (href_of anchor) as [href|] eqn:Hhref.
  2:{ left. rewrite click_ignored; eauto. }
  destruct (decide (href = "")) as [->|Hne].
  { left. rewrite click_ignored; eauto. }
  destruct (decide (href = "#")) as [->|Hbare].
  { left. rewrite click_ignored; eauto. }
  rewrite (click_selects _ _ _ anchor href) by done.
  destruct (querySelector href) as [target| |] eqn:Hq; [|by left..].
  right. by exists href, target.
Qed.

(** X9.  An anchor whose href is missing, empty or the bare ['#'] is
    ignored before anything is looked up: the handler returns normally with
    the event and the window untouched whatever [querySelector] would do
    with that href, also where it would raise. *)
Theorem smooth_scroll_ignores_bare_hash (anchor : node) :
  href_of anchor = None ∨ href_of anchor = Some "" ∨ href_of anchor = Some "#" →
  click anchor = (Return tt, untouched).
Proof.
  intros Hhref. unfold SmoothScroll.click, anchor_click.
  destruct Hhref as [->|[->| ->]]; reflexivity.
Qed.

End smooth_scroll_total_facts.

Lemma smooth_scroll_ignores_bare_hash_witness :
  SmoothScroll.click (λ _, SmoothScroll.InvalidSelector) (λ _, Some "#") (λ _, 0%Z) 3
  = (Return tt, SmoothScroll.untouched).
Proof.
  apply smooth_scroll_ignores_bare_hash. right. right. reflexivity.
Defined.

(** ** TypingEffect: what is shown, and the cycle through the words *)

Section typing_cycle_facts.
Import TypingEffect.
Variable c : config.
Variable el : node.
Hypothesis has_element : element c = Some el.

Local Abbreviation in_phase st i k d tos :=
  (wordIndex st = i ∧ charIndex st = k ∧ isDeleting st = d ∧ timeouts st = tos).

Lemma substring0_0 word : substring0 0 word = "".
Proof. by destruct word. Qed.

Lemma substring0_empty k : substring0 k "" = "".
Proof. unfold substring0. by destruct (Z.to_nat k). Qed.

Lemma length_nonempty word : word ≠ "" → (1 ≤ Z.of_nat (String.length word))%Z.
Proof. destruct word; [done|]. simpl. lia. Qed.

Lemma steps_one st : steps c 1 st = type c st.
Proof.
  cbn [steps]. rewrite run_bind. by destruct (type c st) as [[[]|e] st'].
Qed.

Lemma steps_add a b st st1 :
  steps c a st = (Return tt, st1) → steps c (a + b) st = steps c b st1.
Proof.
  revert st. induction a as [|a IH]; intros st Ha.
  - cbn [steps] in Ha. by injection Ha as ->.
  - cbn [steps Nat.add] in *. rewrite run_bind in *.
    destruct (type c st) as [[[]|e] st2]; [by apply IH|done].
Qed.

(** One step from a state that is about to type or to delete. *)
Lemma type_showing st word :
  Forall (λ word, word ≠ "") (words c) →
  words c !! wordIndex st = Some word →
  (0 ≤ charIndex st ≤ Z.of_nat (String.length word))%Z →
  (isDeleting st = false → (charIndex st < Z.of_nat (String.length word))%Z) →
  (isDeleting st = true → (1 ≤ charIndex st)%Z) →
  ∃ st', type c st = (Return tt, st') ∧ showing c st'.
Proof.
  intros Hwords Hword Hrange Htyping Hdeleting.
  eexists. split; [by eapply type_eq|].
  destruct (isDeleting st) eqn:Hdel.
  - specialize (Hdeleting eq_refl). case_bool_decide as Hzero.
    + assert ((wordIndex st + 1) `mod` length (words c) < length (words c)) as Hlt.
      { apply Nat.mod_upper_bound. apply lookup_lt_Some in Hword. lia. }
      destruct (lookup_lt_is_Some_2 _ _ Hlt) as [next Hnext].
      assert (next ≠ "") as Hnonempty.
      { rewrite Forall_forall in Hwords. apply Hwords.
        by eapply list_elem_of_lookup_2. }
      pose proof (length_nonempty next Hnonempty).
      exists next. cbn. rewrite Hzero, !substring0_0. split_and!; try done; lia.
    + exists word. cbn. split_and!; try done; lia.
  - specialize (Htyping eq_refl). case_bool_decide as Hfull.
    + exists word. cbn. split_and!; try done; lia.
    + exists word. cbn. split_and!; try done; lia.
Qed.

Lemma steps_showing n st :
  Forall (λ word, word ≠ "") (words c) →
  showing c st →
  ∃ st', steps c n st = (Return tt, st') ∧ showing c st'.
Proof.
  intros Hwords. revert st. induction n as [|n IH]; intros st Hst; [by exists st|].
  destruct Hst as (word & Hword & _ & Hrange & Htyping & Hdeleting).
  destruct (type_showing st word) as (st1 & Hty & Hst1); try done.
  destruct (IH st1 Hst1) as (st' & Hsteps & Hst').
  exists st'. split; [|done]. cbn [steps]. by rewrite run_bind, Hty.
Qed.

(** X10.  With words that are all non-empty, after one step or more the
    element shows exactly the first [charIndex] characters of the current
    word, and the char index stays between 0 and the length of that word:
    below the length while typing, above 0 while deleting.  No step throws. *)
Theorem typing_shows_prefix_of_current_word (text : string) (n : nat) :
  words c ≠ [] →
  Forall (λ word, word ≠ "") (words c) →
  ∃ st, steps c (S n) (initial text) = (Return tt, st) ∧ showing c st.
Proof.
  intros Hne Hwords.
  destruct (words c) as [|first rest] eqn:Hw; [done|].
  assert (1 ≤ Z.of_nat (String.length first))%Z as Hfirst.
  { apply length_nonempty. by apply Forall_cons in Hwords as [? _]. }
  destruct (type_showing (initial text) first) as (st1 & Hty & Hst1).
  - by rewrite Hw.
  - by rewrite Hw.
  - cbn. lia.
  - intros _. cbn. lia.
  - done.
  - destruct (steps_showing n st1) as (st & Hsteps & Hst); [by rewrite Hw|done|].
    exists st. split; [|done]. cbn [steps]. by rewrite run_bind, Hty.
Qed.

(** *** One word, typed and deleted *)

Lemma typing_phase word i j :
  words c !! i = Some word →
  ∀ st k tos,
    in_phase st i k false tos → (0 ≤ k)%Z →
    (k + Z.of_nat j < Z.of_nat (String.length word))%Z →
    ∃ st', steps c j st = (Return tt, st')
           ∧ in_phase st' i (k + Z.of_nat j)%Z false (tos ++ replicate j (typingSpeed c)).
Proof.
  intros Hword. induction j as [|j IH]; intros st k tos (Hi & Hk & Hd & Htos) Hpos Hlt.
  - exists st. cbn [steps replicate]. rewrite app_nil_r, Z.add_0_r. done.
  - assert (words c !! wordIndex st = Some word) as Hst by by rewrite Hi.
    pose proof (type_eq c el has_element st word Hst) as Hty.
    rewrite Hd, Hk in Hty. rewrite bool_decide_eq_false_2 in Hty by lia.
    lazymatch type of Hty with
    | _ = (_, ?next) =>
        destruct (IH next (k + 1)%Z (tos ++ [typingSpeed c]))
          as (st' & Hsteps & Hi' & Hk' & Hd' & Htos')
    end.
    { split_and!; [done|reflexivity|done|cbn; by rewrite Htos]. }
    { lia. } { lia. }
    exists st'. split; [cbn [steps]; by rewrite run_bind, Hty|].
    split_and!; [done|lia|done|].
    rewrite Htos', <-app_assoc. done.
Qed.

Lemma deleting_phase word i j :
  words c !! i = Some word →
  ∀ st k tos,
    in_phase st i k true tos →
    (Z.of_nat j < k)%Z →
    ∃ st', steps c j st = (Return tt, st')
           ∧ in_phase st' i (k - Z.of_nat j)%Z true (tos ++ replicate j (deletingSpeed c)).
Proof.
  intros Hword. induction j as [|j IH]; intros st k tos (Hi & Hk & Hd & Htos) Hlt.
  - exists st. cbn [steps replicate]. rewrite app_nil_r, Z.sub_0_r. done.
  - assert (words c !! wordIndex st = Some word) as Hst by by rewrite Hi.
    pose proof (type_eq c el has_element st word Hst) as Hty.
    rewrite Hd, Hk in Hty. rewrite bool_decide_eq_false_2 in Hty by lia.
    lazymatch type of Hty with
    | _ = (_, ?next) =>
        destruct (IH next (k - 1)%Z (tos ++ [deletingSpeed c]))
          as (st' & Hsteps & Hi' & Hk' & Hd' & Htos')
    end.
    { split_and!; [done|reflexivity|done|cbn; by rewrite Htos]. }
    { lia. }
    exists st'. split; [cbn [steps]; by rewrite run_bind, Hty|].
    split_and!; [done|lia|done|].
    rewrite Htos', <-app_assoc. done.
Qed.

(** X11.  A non-empty word of length [L] takes [2 * L] steps: from the
    start of word [i] the widget types it, pauses, deletes it and stands at
    the start of the next word (the first one after the last), the element
    empty again.  The timers it set on the way are [L - 1] typing delays,
    the pause between words, [L - 1] deleting delays and 500. *)
Theorem typing_cycle_advances_to_next_word (i : nat) (word : string) (st : state) :
  words c !! i = Some word →
  word ≠ "" →
  at_word i st →
  ∃ st',
    steps c (2 * String.length word) st = (Return tt, st')
    ∧ at_word ((i + 1) `mod` length (words c)) st'
    ∧ textContent st' = ""
    ∧ timeouts st'
      = timeouts st
        ++ replicate (String.length word - 1) (typingSpeed c)
        ++ [delayBetweenWords c]
        ++ replicate (String.length word - 1) (deletingSpeed c)
        ++ [500].
Proof.
  intros Hword Hne (Hi & Hk & Hd).
  pose proof (length_nonempty word Hne) as HL.
  set (L := String.length word) in *.
  (* typing all but the last character *)
  destruct (typing_phase word i (L - 1) Hword st 0%Z (timeouts st))
    as (st1 & Hsteps1 & Hi1 & Hk1 & Hd1 & Htos1); [done|lia|lia|].
  (* the last character: the pause *)
  assert (words c !! wordIndex st1 = Some word) as Hst1 by by rewrite Hi1.
  pose proof (type_eq c el has_element st1 word Hst1) as Hty1.
  rewrite Hd1, Hk1 in Hty1. rewrite bool_decide_eq_true_2 in Hty1 by (fold L; lia).
  (* deleting all but the last character *)
  lazymatch type of Hty1 with
  | _ = (_, ?next) =>
      destruct (deleting_phase word i (L - 1) Hword next (Z.of_nat L)
                  (timeouts st1 ++ [delayBetweenWords c]))
        as (st3 & Hsteps3 & Hi3 & Hk3 & Hd3 & Htos3)
  end.
  { split_and!; [exact Hi1|cbn; lia|reflexivity|reflexivity]. }
  { lia. }
  (* the last deletion: on to the next word *)
  assert (words c !! wordIndex st3 = Some word) as Hst3 by by rewrite Hi3.
  pose proof (type_eq c el has_element st3 word Hst3) as Hty3.
  rewrite Hd3, Hk3 in Hty3. rewrite bool_decide_eq_true_2 in Hty3 by lia.
  eexists. split.
  - replace (2 * L) with ((L - 1) + (1 + ((L - 1) + 1))) by lia.
    rewrite (steps_add _ _ _ _ Hsteps1).
    rewrite (steps_add 1 _ _ _ (eq_trans (steps_one _) Hty1)).
    rewrite (steps_add _ _ _ _ Hsteps3).
    rewrite steps_one. exact Hty3.
  - cbn. rewrite Hi3, Htos3, Htos1.
    replace (Z.of_nat L - Z.of_nat (L - 1) - 1)%Z with 0%Z by lia.
    rewrite substring0_0. split_and!; try done.
    by rewrite <-!app_assoc.
Qed.

(** X12.  An empty word stalls the widget: [charIndex] can never equal
    its length 0 after the increment, so from the start of an empty word
    the widget keeps typing for ever -- after [n] steps the char index is
    [n], the deleting flag still clear, the word index unchanged, the
    element empty, and [n] typing delays were set. *)
Theorem typing_stalls_on_empty_word (i n : nat) (st : state) :
  words c !! i = Some "" →
  at_word i st →
  ∃ st',
    steps c n st = (Return tt, st')
    ∧ wordIndex st' = i
    ∧ charIndex st' = Z.of_nat n
    ∧ isDeleting st' = false
    ∧ (0 < n → textContent st' = "")
    ∧ timeouts st' = timeouts st ++ replicate n (typingSpeed c).
Proof.
  intros Hword (Hi & Hk & Hd).
  assert (∀ n st k tos,
            in_phase st i k false tos → (0 ≤ k)%Z →
            ∃ st', steps c n st = (Return tt, st')
                   ∧ in_phase st' i (k + Z.of_nat n)%Z false
                       (tos ++ replicate n (typingSpeed c))
                   ∧ (0 < n → textContent st' = "")) as Hrun.
  { clear n st Hi Hk Hd. induction n as [|n IH]; intros st k tos (Hi & Hk & Hd & Htos) Hpos.
    - exists st. cbn [steps replicate]. rewrite app_nil_r, Z.add_0_r.
      split_and!; try done. lia.
    - assert (words c !! wordIndex st = Some "") as Hst by by rewrite Hi.
      pose proof (type_eq c el has_element st "" Hst) as Hty.
      rewrite Hd, Hk in Hty. rewrite bool_decide_eq_false_2 in Hty by (cbn; lia).
      lazymatch type of Hty with
      | _ = (_, ?next) =>
          destruct (IH next (k + 1)%Z (tos ++ [typingSpeed c]))
            as (st' & Hsteps & (Hi' & Hk' & Hd' & Htos') & Htext)
      end.
      { split_and!; [done|reflexivity|done|cbn; by rewrite Htos]. }
      { lia. }
      exists st'. split; [cbn [steps]; by rewrite run_bind, Hty|].
      split_and!; [done|lia|done|by rewrite Htos', <-app_assoc|].
      intros _. destruct n as [|n]; [|apply Htext; lia].
      cbn [steps] in Hsteps. injection Hsteps as <-. apply substring0_empty. }
  destruct (Hrun n st 0%Z (timeouts st)) as (st' & Hsteps & (Hi' & Hk' & Hd' & Htos') & Htext);
    [done|lia|].
  exists st'. split_and!; try done.
Qed.

(** X13.  Every step sets exactly one timer, with one of the four delays
    of the widget (typing, deleting, the pause between words, 500): after
    [n] steps from a state of the running widget, [n] delays were added and
    none taken away, so the animation neither stops nor doubles. *)
Theorem typing_sets_one_timer_per_step (n : nat) (st : state) :
  consistent c st →
  ∃ st' delays,
    steps c n st = (Return tt, st')
    ∧ timeouts st' = timeouts st ++ delays
    ∧ length delays = n
    ∧ Forall (λ delay, delay ∈ [typingSpeed c; deletingSpeed c;
                                 delayBetweenWords c; 500]) delays.
Proof.
  revert st. induction n as [|n IH]; intros st Hst.
  - exists st, []. by rewrite app_nil_r.
  - destruct (type_consistent c el has_element st Hst) as (st1 & Hty & Hst1 & _).
    destruct (IH st1 Hst1) as (st' & delays & Hsteps & Htos & Hlen & Hdelays).
    assert (∃ delay, timeouts st1 = timeouts st ++ [delay]
                     ∧ delay ∈ [typingSpeed c; deletingSpeed c;
                                delayBetweenWords c; 500]) as (delay & Htos1 & Hdelay).
    { destruct Hst as (Hwi & _).
      destruct (lookup_lt_is_Some_2 _ _ Hwi) as [word Hword].
      rewrite (type_eq c el has_element st word Hword) in Hty.
      injection Hty as <-.
      destruct (isDeleting st); case_bool_decide; cbn;
        eexists; (split; [reflexivity|set_solver]). }
    exists st', (delay :: delays). split_and!.
    + cbn [steps]. by rewrite run_bind, Hty.
    + rewrite Htos, Htos1, <-app_assoc. done.
    + cbn. by rewrite Hlen.
    + by constructor.
Qed.

End typing_cycle_facts.

Lemma typing_shows_prefix_of_current_word_witness :
  ∃ st,
    TypingEffect.steps (TypingEffect.new (Some 1) ["ab"; "c"]) 7
      (TypingEffect.initial "loading")
    = (Return tt, st)
    ∧ TypingEffect.showing (TypingEffect.new (Some 1) ["ab"; "c"]) st.
Proof.
  apply (typing_shows_prefix_of_current_word
           (TypingEffect.new (Some 1) ["ab"; "c"]) 1 eq_refl "loading" 6).
  - discriminate.
  - repeat constructor; discriminate.
Defined.

Lemma typing_cycle_advances_to_next_word_witness :
  let c := TypingEffect.new (Some 1) ["ab"; "c"] in
  let st := TypingEffect.State 1 0 false "" [] in
  ∃ st',
    TypingEffect.steps c (2 * String.length "c") st = (Return tt, st')
    ∧ TypingEffect.at_word ((1 + 1) `mod` length (TypingEffect.words c)) st'
    ∧ TypingEffect.textContent st' = ""
    ∧ TypingEffect.timeouts st'
      = TypingEffect.timeouts st
        ++ replicate (String.length "c" - 1) (TypingEffect.typingSpeed c)
        ++ [TypingEffect.delayBetweenWords c]
        ++ replicate (String.length "c" - 1) (TypingEffect.deletingSpeed c)
        ++ [500].
Proof.
  apply (typing_cycle_advances_to_next_word
           (TypingEffect.new (Some 1) ["ab"; "c"]) 1 eq_refl 1 "c"
           (TypingEffect.State 1 0 false "" [])).
  - reflexivity.
  - discriminate.
  - done.
Defined.

Lemma typing_stalls_on_empty_word_witness :
  let c := TypingEffect.new (Some 1) ["ab"; ""] in
  let st := TypingEffect.State 1 0 false "" [] in
  ∃ st',
    TypingEffect.steps c 5 st = (Return tt, st')
    ∧ TypingEffect.wordIndex st' = 1
    ∧ TypingEffect.charIndex st' = Z.of_nat 5
    ∧ TypingEffect.isDeleting st' = false
    ∧ (0 < 5 → TypingEffect.textContent st' = "")
    ∧ TypingEffect.timeouts st'
      = TypingEffect.timeouts st ++ replicate 5 (TypingEffect.typingSpeed c).
Proof.
  apply (typing_stalls_on_empty_word
           (TypingEffect.new (Some 1) ["ab"; ""]) 1 eq_refl 1 5
           (TypingEffect.State 1 0 false "" [])).
  - reflexivity.
  - done.
Defined.

Lemma typing_sets_one_timer_per_step_witness :
  let c := TypingEffect.new (Some 1) ["ab"; "c"] in
  ∃ st' delays,
    TypingEffect.steps c 9 (TypingEffect.initial "") = (Return tt, st')
    ∧ TypingEffect.timeouts st' = TypingEffect.timeouts (TypingEffect.initial "") ++ delays
    ∧ length delays = 9
    ∧ Forall (λ delay, delay ∈ [TypingEffect.typingSpeed c; TypingEffect.deletingSpeed c;
                                 TypingEffect.delayBetweenWords c; 500]) delays.
Proof.
  apply (typing_sets_one_timer_per_step
           (TypingEffect.new (Some 1) ["ab"; "c"]) 1 eq_refl 9 (TypingEffect.initial "")).
  split_and!; [cbn; lia|done|done].
Defined.

(** The first word typed and deleted, step by step. *)
Example typing_first_word_timeline :
  TypingEffect.timeouts
    (snd (TypingEffect.steps (TypingEffect.new (Some 1) ["ab"; "c"]) 4
            (TypingEffect.initial "")))
  = [100; 2000; 50; 500].
Proof. reflexivity. Qed.

(** ** Preloader: the timeline after the load event *)

Section preloader_facts.
Import Preloader.

(** The page [ms] milliseconds after a load event at time [T], told in one
    piece: first the fade timer is pending, then the hide timer, then none. *)
Lemma elapse_after_load (w : world) (ms : nat) :
  timers w = [] →
  elapse ms (load w)
  = {| now := now w + ms;
       timers := if decide (ms < 500) then [(now w + 500, fade)]
                 else if decide (ms < 800) then [(now w + 500 + 300, hide)]
                 else [];
       style_of :=
         Style (if decide (ms < 500) then opacity (style_of w) else "0")
               (if decide (ms < 800) then display (style_of w) else "none") |}.
Proof.
  intros Hnone. induction ms as [|ms IH].
  - unfold elapse, load, setTimeout. cbn [Nat.iter]. rewrite Hnone, Nat.add_0_r.
    cbn. by destruct (style_of w).
  - unfold elapse in *. rewrite Nat.iter_succ, IH. clear IH.
    unfold tick, settle. cbn [now timers style_of].
    repeat case_decide; try lia;
      rewrite ?filter_cons, ?filter_nil; cbn [fst];
      repeat case_decide; try lia;
      cbn; unfold setTimeout; cbn; f_equal; try lia; try done;
      repeat f_equal; lia.
Qed.

(** X14.  After the load event the preloader turns transparent after 500
    ms and leaves the layout 300 ms later: [ms] milliseconds after the
    event its opacity is ['0'] exactly when [ms >= 500] and its display is
    ['none'] exactly when [ms >= 800]; until then each keeps the value it
    had.  From 800 ms on no timer of the widget is left. *)
Theorem preloader_fades_then_hides (w : world) (ms : nat) :
  timers w = [] →
  opacity (style_of (elapse ms (load w)))
    = (if decide (ms < 500) then opacity (style_of w) else "0")
  ∧ display (style_of (elapse ms (load w)))
    = (if decide (ms < 800) then display (style_of w) else "none")
  ∧ (800 ≤ ms → timers (elapse ms (load w)) = []).
Proof.
  intros Hnone. rewrite elapse_after_load by done. cbn. split_and!; [done..|].
  intros Hms. by rewrite !decide_False by lia.
Qed.

End preloader_facts.

Lemma preloader_fades_then_hides_witness :
  let w := Preloader.World 0 [] (Preloader.Style "1" "flex") in
  Preloader.opacity (Preloader.style_of (Preloader.elapse 650 (Preloader.load w)))
    = (if decide (650 < 500) then Preloader.opacity (Preloader.style_of w) else "0")
  ∧ Preloader.display (Preloader.style_of (Preloader.elapse 650 (Preloader.load w)))
    = (if decide (650 < 800) then Preloader.display (Preloader.style_of w) else "none")
  ∧ (800 ≤ 650 → Preloader.timers (Preloader.elapse 650 (Preloader.load w)) = []).
Proof.
  apply (preloader_fades_then_hides (Preloader.World 0 [] (Preloader.Style "1" "flex")) 650).
  reflexivity.
Defined.

(** ** PerformanceMonitor: the guarded registration *)

Section performance_monitor_facts.
Import PerformanceMonitor.
Context {E : Type}.

(** X15.  [init] never throws.  Without a [PerformanceObserver] in the
    window it does nothing; with one it starts observing 'navigation' and
    'paint', and when [observe] raises on these entry types the error is
    caught and one line, "PerformanceObserver not fully supported", goes to
    the console instead.  The observer callback logs every entry it is
    given, in order, and nothing else. *)
Theorem performance_monitor_never_throws (win : window) (st : state E) :
  fst (init win st) = Return tt
  ∧ snd (init win st)
    = (if has_PerformanceObserver win then
         if accepts win ["navigation"; "paint"] then
           State (console st) (observing st ++ [["navigation"; "paint"]])
         else
           State (console st ++ [Message "PerformanceObserver not fully supported"])
             (observing st)
       else st)
  ∧ ∀ entries,
      callback entries st
      = (Return tt,
         State (console st ++ (Labelled "Performance entry:" <$> entries))
           (observing st)).
Proof.
  split_and!.
  - unfold init, try_catch, observe.
    destruct (has_PerformanceObserver win); [|done]. by destruct (accepts win _).
  - unfold init, try_catch, observe.
    destruct (has_PerformanceObserver win); [|done]. by destruct (accepts win _).
  - intros entries. unfold callback. rewrite forEach_total by done.
    f_equal. revert st. induction entries as [|entry entries IH]; intros [con obs].
    + cbn. by rewrite app_nil_r.
    + cbn [foldl]. rewrite IH. cbn. by rewrite <-app_assoc.
Qed.

End performance_monitor_facts.

(** ** The whole page: which tokens are written, and by what *)

Section token_facts.
Import Tokens.
Variable c : string.
Hypothesis foreign : c ∉ written.

Lemma foreign_token : c ≠ "active" ∧ c ≠ "scrolled" ∧ c ≠ "visible".
Proof. unfold written in foreign. set_solver. Qed.

Lemma leaves_ret {A} (a : A) : leaves c (mret a).
Proof. by intros p e. Qed.

Lemma leaves_throw {A} ex : leaves c (throw (A := A) ex).
Proof. by intros p e. Qed.

Lemma leaves_deref {A} (r : option A) : leaves c (deref r).
Proof. destruct r; [apply leaves_ret|apply leaves_throw]. Qed.

Lemma leaves_gets {A} (f : page → A) : leaves c (gets f).
Proof. by intros p e. Qed.

Lemma leaves_bind {A B} (m : js page A) (k : A → js page B) :
  leaves c m → (∀ a, leaves c (k a)) → leaves c (m ≫= k).
Proof.
  intros Hm Hk p e. rewrite run_bind. specialize (Hm p e).
  destruct (m p) as [[a|ex] p']; [|done]. cbn [snd] in Hm.
  etrans; [apply (Hk a)|exact Hm].
Qed.

Lemma leaves_forEach {A} (f : A → js page unit) (l : list A) :
  (∀ x, leaves c (f x)) → leaves c (forEach f l).
Proof.
  intros Hf. induction l as [|x l IH]; [apply leaves_ret|].
  cbn [forEach]. apply leaves_bind; [apply Hf|by intros _].
Qed.

Lemma leaves_add e d : d ≠ c → leaves c (modify (add e d)).
Proof. intros Hd p e'. cbn [snd modify]. rewrite marked_add. naive_solver. Qed.

Lemma leaves_remove e d : d ≠ c → leaves c (modify (remove e d)).
Proof. intros Hd p e'. cbn [snd modify]. rewrite marked_remove. naive_solver. Qed.

Lemma leaves_toggle e d : d ≠ c → leaves c (modify (DOM.toggle e d)).
Proof.
  intros Hd p e'. cbn [snd modify]. rewrite marked_toggle, decide_False; [done|].
  by intros [_ ?].
Qed.

Lemma leaves_set_overflow v : leaves c (modify (set_overflow v)).
Proof. by intros p e. Qed.

Ltac leaves_step :=
  lazymatch goal with
  | |- leaves _ (mbind _ _) => apply leaves_bind; [|intros ?]
  | |- leaves _ (mret _) => apply leaves_ret
  | |- leaves _ (throw _) => apply leaves_throw
  | |- leaves _ (deref _) => apply leaves_deref
  | |- leaves _ (gets _) => apply leaves_gets
  | |- leaves _ (modify (add _ _)) => apply leaves_add; naive_solver
  | |- leaves _ (modify (remove _ _)) => apply leaves_remove; naive_solver
  | |- leaves _ (modify (DOM.toggle _ _)) => apply leaves_toggle; naive_solver
  | |- leaves _ (modify (set_overflow _)) => apply leaves_set_overflow
  | |- leaves _ (forEach _ _) => apply leaves_forEach; intros ?
  | |- leaves _ (if ?b then _ else _) => destruct b
  end.

Lemma leaves_menu_call w ev l : leaves c (MobileMenu.call w ev l).
Proof.
  pose proof foreign_token as (? & ? & ?).
  assert (leaves c (MobileMenu.closeMenu w)) as Hclose.
  { unfold MobileMenu.closeMenu. repeat leaves_step. }
  destruct l; unfold MobileMenu.call.
  - unfold MobileMenu.toggleMenu. repeat leaves_step.
  - done.
  - repeat leaves_step; done.
  - destruct ev; repeat leaves_step; done.
Qed.

Lemma leaves_on_scroll w y : leaves c (ScrollHeader.on_scroll w y).
Proof.
  pose proof foreign_token as (? & ? & ?).
  unfold ScrollHeader.on_scroll. repeat leaves_step.
Qed.

Lemma leaves_reveal entries : leaves c (ScrollReveal.callback entries).
Proof.
  pose proof foreign_token as (? & ? & ?).
  unfold ScrollReveal.callback. repeat leaves_step.
Qed.

Lemma leaves_highlight href_of id_of w entries :
  leaves c (ActiveSectionHighlighter.callback href_of id_of w entries).
Proof.
  pose proof foreign_token as (? & ? & ?).
  unfold ActiveSectionHighlighter.callback, ActiveSectionHighlighter.setActiveLink.
  repeat leaves_step.
Qed.

End token_facts.

Section page_facts.
Import App.
Variable querySelector : string → SmoothScroll.query.
Variable href_of : node → option string.
Variable id_of : node → string.
Variable offsetTop : node → Z.
Variable d : document.

Local Abbreviation world := (Debounce.world unit store).
Local Abbreviation step := (step querySelector href_of id_of offsetTop d).
Local Abbreviation run := (run querySelector href_of id_of offsetTop d).
Local Abbreviation call := (call querySelector href_of offsetTop d).
Local Abbreviation dispatch := (dispatch querySelector href_of offsetTop d).
Local Abbreviation page_of w := (dom (Debounce.user w)).

Implicit Types (w : world).

Lemma elem_of_listeners_for {H} (regs : list (registration H)) ev h :
  h ∈ listeners_for regs ev → ∃ r, r ∈ regs ∧ handler r = h.
Proof.
  unfold listeners_for. intros (tg & Hh & _)%list_elem_of_bind.
  apply elem_of_listeners_at in Hh. by eexists (Reg _ _ _).
Qed.

(** A listener of the menu is called only if [init] registered it. *)
Lemma menu_listener_registered ev l :
  of_menu l ∈ listeners_for (initComponents d) ev →
  MobileMenu.registered (mobileMenu d) ≠ [].
Proof.
  intros (r & Hr & Hl)%elem_of_listeners_for.
  unfold initComponents, relabel in Hr.
  rewrite !elem_of_app, !list_elem_of_fmap in Hr.
  destruct Hr as [(r0 & -> & Hr0)|[(r0 & -> & _)|(r0 & -> & _)]];
    cbn [handler] in Hl; try discriminate.
  unfold MobileMenu.registered. intros Hnil. rewrite Hnil in Hr0.
  by apply elem_of_nil in Hr0.
Qed.

(** An invariant of the document that every piece of widget script keeps
    is kept by everything that can happen to the page. *)
Lemma run_invariant (P : page → Prop) :
  (∀ ev l p, MobileMenu.registered (mobileMenu d) ≠ [] →
     P p → P (snd (MobileMenu.call (mobileMenu d) ev l p))) →
  (∀ y p, P p → P (snd (ScrollHeader.on_scroll (scrollHeader d) y p))) →
  (∀ entries p, reveal_observers d ≠ [] → P p → P (snd (ScrollReveal.callback entries p))) →
  (∀ entries p, section_observers d ≠ [] → P p →
     P (snd (ActiveSectionHighlighter.callback href_of id_of (highlighter d) entries p))) →
  ∀ os w, P (page_of w) → P (page_of (run os w)).
Proof.
  intros Hmenu Hheader Hreveal Hsection.
  assert (∀ ev l w,
            (∀ l', l = of_menu l' → MobileMenu.registered (mobileMenu d) ≠ []) →
            P (page_of w) → P (page_of (snd (call ev l w)))) as Hcall.
  { intros ev [l|[a]|[wait]] w Hreg Hw; unfold App.call.
    - unfold on_dom. specialize (Hmenu ev l _ (Hreg l eq_refl) Hw).
      by destruct (MobileMenu.call _ _ _ _) as [r p].
    - done.
    - unfold modify; cbn [snd]. by rewrite user_executedFunction. }
  assert (∀ ev w, P (page_of w) → P (page_of (dispatch ev w))) as Hdispatch.
  { intros ev w. unfold App.dispatch, call_all.
    pose proof (menu_listener_registered ev) as Hreg. revert Hreg.
    generalize (listeners_for (initComponents d) ev). intros ls Hreg. revert w.
    induction ls as [|l ls IH]; intros w Hw; [done|].
    cbn [foldl]. apply IH.
    - intros l' Hl'. apply (Hreg l'). by right.
    - apply Hcall; [|done]. intros l' ->. apply (Hreg l'). by left. }
  intros os. induction os as [|o os IH]; intros w Hw; [done|].
  cbn [App.run foldl]. apply IH.
  destruct o as [ev|y|ms|entries|entries]; unfold App.step.
  - by apply Hdispatch.
  - by apply Hdispatch.
  - apply (advance_keeps _ (λ st, P (dom st))); [|done].
    intros a st Hst. by apply Hheader.
  - destruct (reveal_observers d) eqn:Hobs; [done|].
    unfold on_dom. specialize (Hreveal entries _ ltac:(done) Hw).
    by destruct (ScrollReveal.callback _ _) as [r p].
  - destruct (section_observers d) eqn:Hobs; [done|].
    unfold on_dom. specialize (Hsection entries _ ltac:(done) Hw).
    by destruct (ActiveSectionHighlighter.callback _ _ _ _ _) as [r p].
Qed.

(** X16.  The widgets of the page talk to the style sheet through three
    tokens only: whatever happens -- events, timers, observer callbacks --
    a token other than 'active', 'scrolled' and 'visible' is on an element
    afterwards exactly when it was before. *)
Theorem page_writes_only_its_tokens
    (c : string) (os : list occurrence) (w : world) (e : node) :
  c ∉ Tokens.written →
  marked c (page_of (run os w)) e ↔ marked c (page_of w) e.
Proof.
  intros Hc.
  apply (run_invariant (λ p, marked c p e ↔ marked c (page_of w) e)); [..|done].
  - intros ev l p _ Hp. etrans; [apply (leaves_menu_call c Hc)|done].
  - intros y p Hp. etrans; [apply (leaves_on_scroll c Hc)|done].
  - intros entries p _ Hp. etrans; [apply (leaves_reveal c Hc)|done].
  - intros entries p _ Hp. etrans; [apply (leaves_highlight c Hc)|done].
Qed.

(** X17.  A page on which the selectors find nothing is never written:
    with no toggle control or no menu, no header, no element to reveal and
    no section or no navigation link, the document stays exactly as it was
    whatever happens -- no listener of the menu exists, the scroll callback
    and the observers have nothing to act on. *)
Theorem page_without_elements_is_never_written (os : list occurrence) (w : world) :
  MobileMenu.toggle (mobileMenu d) = None ∨ MobileMenu.menu (mobileMenu d) = None →
  ScrollHeader.header (scrollHeader d) = None →
  ScrollReveal.elements (scrollReveal d) = [] →
  ActiveSectionHighlighter.sections (highlighter d) = []
  ∨ ActiveSectionHighlighter.navLinks (highlighter d) = [] →
  page_of (run os w) = page_of w.
Proof.
  intros Hmenu Hheader Hreveal Hsections.
  apply (run_invariant (λ p, p = page_of w)); [..|done].
  - intros ev l p Hreg _. destruct Hreg. unfold MobileMenu.registered, MobileMenu.init.
    destruct (mobileMenu d) as [[t|] [m|] items]; cbn in *; try done.
    by destruct Hmenu.
  - intros y p ->. unfold ScrollHeader.on_scroll. rewrite Hheader.
    by case_bool_decide.
  - intros entries p Hobs _. destruct Hobs. unfold reveal_observers, ScrollReveal.init.
    by rewrite Hreveal.
  - intros entries p Hobs _. destruct Hobs.
    unfold section_observers, ActiveSectionHighlighter.init.
    destruct Hsections as [-> | ->]; [done|].
    by destruct (ActiveSectionHighlighter.sections (highlighter d)).
Qed.

End page_facts.

Lemma page_writes_only_its_tokens_witness :
  marked "dark"
    (App.dom (Debounce.user
       (App.run (λ _, SmoothScroll.NoMatch) (λ _, Some "#about") (λ _, "about") (λ _, 0%Z)
          (App.Document (MobileMenu.Widget (Some 1) (Some 2) [3; 4]) [3; 4]
             (ScrollHeader.new (Some 0)) (ScrollReveal.Widget [5; 6])
             (ActiveSectionHighlighter.Widget [7; 8] [3; 4]))
          [App.Dispatched (Click [1; 0]); App.Scrolled (Q2Qc 150); App.Elapsed 10;
           App.Revealed [Entry true 5]; App.Intersected [Entry true 7]]
          (App.loaded (add 1 "dark" (Page ∅ "")) (Q2Qc 0)))))
    1
  ↔ marked "dark"
      (App.dom (Debounce.user (App.loaded (add 1 "dark" (Page ∅ "")) (Q2Qc 0)))) 1.
Proof.
  apply page_writes_only_its_tokens.
  unfold Tokens.written. rewrite !elem_of_cons, elem_of_nil.
  intros [?|[?|[?|[]]]]; discriminate.
Defined.

Lemma page_without_elements_is_never_written_witness :
  App.dom (Debounce.user
    (App.run (λ _, SmoothScroll.NoMatch) (λ _, Some "#about") (λ _, "about") (λ _, 0%Z)
       (App.Document (MobileMenu.Widget (Some 1) None [3; 4]) [3; 4]
          (ScrollHeader.new None) (ScrollReveal.Widget [])
          (ActiveSectionHighlighter.Widget [7; 8] []))
       [App.Dispatched (Click [1; 0]); App.Scrolled (Q2Qc 150); App.Elapsed 10;
        App.Revealed [Entry true 5]; App.Intersected [Entry true 7]]
       (App.loaded (Page ∅ "") (Q2Qc 0))))
  = App.dom (Debounce.user (App.loaded (Page ∅ "") (Q2Qc 0))).
Proof.
  apply page_without_elements_is_never_written.
  - by right.
  - reflexivity.
  - reflexivity.
  - by right.
Defined.

(** ** The whole page: the header follows the scroll position *)

Section page_scroll_facts.
Import App.
Variable querySelector : string → SmoothScroll.query.
Variable href_of : node → option string.
Variable id_of : node → string.
Variable offsetTop : node → Z.
Variable d : document.
Variable h : node.
Hypothesis has_header : scrollHeader d = ScrollHeader.new (Some h).

Local Abbreviation world := (Debounce.world unit store).
Local Abbreviation run := (run querySelector href_of id_of offsetTop d).
Local Abbreviation page_of w := (dom (Debounce.user w)).

Lemma listeners_at_relabel {H H'} (f : H → H') (regs : list (registration H)) ty tg :
  listeners_at (relabel f regs) ty tg = f <$> listeners_at regs ty tg.
Proof.
  unfold listeners_at, relabel. induction regs as [|r regs IH]; [done|].
  rewrite fmap_cons, !filter_cons. cbn [on type].
  case_decide; [rewrite !fmap_cons|]; by rewrite IH.
Qed.

Lemma listeners_at_no_type {H} (regs : list (registration H)) ty tg :
  Forall (λ r, type r ≠ ty) regs → listeners_at regs ty tg = [].
Proof.
  intros Hty. induction Hty as [|r regs Hr _ IH]; [done|].
  rewrite listeners_at_cons, IH, decide_False by tauto. done.
Qed.

Lemma menu_has_no_scroll_listener (w : MobileMenu.widget) :
  Forall (λ r, type r ≠ "scroll") (snd (MobileMenu.init w [])).
Proof.
  destruct w as [[t|] [m|] items]; try by constructor.
  change (snd _) with (MobileMenu.registered (MobileMenu.Widget (Some t) (Some m) items)).
  rewrite registered_eq, Forall_cons, Forall_app, Forall_fmap.
  split_and!; [done| |by repeat constructor]. by apply Forall_forall.
Qed.

Lemma anchors_have_no_scroll_listener (anchors : list node) :
  Forall (λ r, type r ≠ "scroll") (snd (SmoothScroll.init anchors [])).
Proof.
  rewrite anchors_registered, app_nil_l, Forall_fmap. by apply Forall_forall.
Qed.

(** A scroll event reaches one listener: the debounced callback of the
    header, with its wait of 10 ms. *)
Lemma scroll_listeners :
  listeners_for (initComponents d) Scroll
  = [of_header (ScrollHeader.debounced_on_scroll 10)].
Proof.
  unfold listeners_for, initComponents. cbn [propagation type_of].
  rewrite !bind_cons. rewrite !listeners_at_app, !listeners_at_relabel.
  rewrite !(listeners_at_no_type _ _ _ (menu_has_no_scroll_listener _)).
  rewrite !(listeners_at_no_type _ _ _ (anchors_have_no_scroll_listener _)).
  rewrite has_header. reflexivity.
Qed.

(** X18.  The header follows the scroll position with the delay of the
    debounce: when the viewport moves to offset [y] while no timer is
    pending and nothing else happens, the document is untouched for the next
    10 ms and from then on the header carries 'scrolled' if and only if
    [y > 100], everything else being as before the scroll. *)
Theorem page_header_follows_scroll (y : Qc) (ms : nat) (w : world) :
  Debounce.pending w = [] →
  page_of (run [Scrolled y; Elapsed ms] w)
  = (if decide (ms < 10) then page_of w
     else ScrollHeader.tick (ScrollHeader.new (Some h)) y (page_of w))
  ∧ (10 ≤ ms →
     marked "scrolled" (page_of (run [Scrolled y; Elapsed ms] w)) h
     ↔ (Q2Qc 100 < y)%Qc).
Proof.
  intros Hquiet. unfold App.run. cbn [foldl App.step].
  unfold App.dispatch. rewrite scroll_listeners.
  unfold call_all. cbn [foldl App.call]. unfold modify. cbn [snd].
  set (w1 := Debounce.set_user (Store (page_of w) y) w).
  destruct (executedFunction_arms (header_callback d) 10 tt w1) as (Harmed & Hu & _).
  { by left. }
  rewrite (advance_armed (header_callback d) 10 _ tt _ ms Harmed).
  assert (page_of (Debounce.executedFunction 10 () w1) = page_of w
          ∧ scrollY (Debounce.user (Debounce.executedFunction 10 () w1)) = y)
    as [Hpage Hy] by (by rewrite Hu).
  case_decide as Hms.
  - split; [exact Hpage|lia].
  - cbn [Debounce.user]. unfold header_callback. cbn [dom].
    rewrite has_header, Hpage, Hy. split; [done|]. intros _.
    rewrite tick_eq. case_bool_decide as Hy'.
    + rewrite marked_add. tauto.
    + rewrite marked_remove. tauto.
Qed.

End page_scroll_facts.

Lemma page_header_follows_scroll_witness :
  let d := App.Document (MobileMenu.Widget (Some 1) (Some 2) [3; 4]) [3; 4]
             (ScrollHeader.new (Some 0)) (ScrollReveal.Widget [5; 6])
             (ActiveSectionHighlighter.Widget [7; 8] [3; 4]) in
  let run := App.run (λ _, SmoothScroll.NoMatch) (λ _, Some "#about")
               (λ _, "about") (λ _, 0%Z) d in
  let w := App.loaded (Page ∅ "") (Q2Qc 0) in
  App.dom (Debounce.user (run [App.Scrolled (Q2Qc 150); App.Elapsed 12] w))
  = (if decide (12 < 10) then App.dom (Debounce.user w)
     else ScrollHeader.tick (ScrollHeader.new (Some 0)) (Q2Qc 150) (App.dom (Debounce.user w)))
  ∧ (10 ≤ 12 →
     marked "scrolled"
       (App.dom (Debounce.user (run [App.Scrolled (Q2Qc 150); App.Elapsed 12] w))) 0
     ↔ (Q2Qc 100 < Q2Qc 150)%Qc).
Proof.
  apply (page_header_follows_scroll
           (λ _, SmoothScroll.NoMatch) (λ _, Some "#about") (λ _, "about") (λ _, 0%Z)
           (App.Document (MobileMenu.Widget (Some 1) (Some 2) [3; 4]) [3; 4]
              (ScrollHeader.new (Some 0)) (ScrollReveal.Widget [5; 6])
              (ActiveSectionHighlighter.Widget [7; 8] [3; 4]))
           0 eq_refl).
  reflexivity.
Defined.

(** ** MobileMenu: toggling twice *)

Section mobile_menu_toggle_facts.
Import MobileMenu.
Variables (t m : node) (items : list node).
Hypothesis distinct : t ≠ m.

Local Abbreviation w := (Widget (Some t) (Some m) items).

Lemma marked_opened_any p c e :
  marked c (opened w p) e
  ↔ if decide (c = "active" ∧ (e = t ∨ e = m)) then ¬ marked c p e else marked c p e.
Proof.
  unfold opened. rewrite toggleMenu_eq. cbn [snd]. cbv zeta.
  rewrite marked_set_overflow, marked_toggle.
  destruct (decide (m = e ∧ "active" = c)) as [[<- <-]|Hm].
  - rewrite marked_toggle, decide_False by (intros [? _]; done).
    by rewrite decide_True by (split; [done|by right]).
  - rewrite marked_toggle.
    destruct (decide (t = e ∧ "active" = c)) as [[<- <-]|Ht].
    + by rewrite decide_True by (split; [done|by left]).
    + rewrite decide_False; [done|].
      intros [-> [->| ->]]; [by apply Ht|by apply Hm].
Qed.

(** X20.  Two clicks on the toggle control undo each other: every token
    of every element is as before, and the body overflow is left as the
    restored state of the menu asks, ['hidden'] if it is open and [''] if
    not. *)
Theorem mobile_menu_toggle_twice_restores (p : page) :
  (∀ c e, marked c (opened w (opened w p)) e ↔ marked c p e)
  ∧ overflow (opened w (opened w p)) = (if is_open w p then "hidden" else "").
Proof.
  split.
  - intros c e. rewrite marked_opened_any.
    case_decide as Hce; rewrite marked_opened_any.
    + rewrite decide_True by done. destruct (decide (marked c p e)); tauto.
    + by rewrite decide_False.
  - rewrite overflow_opened, !is_open_opened by done. by rewrite negb_involutive.
Qed.

End mobile_menu_toggle_facts.

Lemma mobile_menu_toggle_twice_restores_witness :
  let w := MobileMenu.Widget (Some 1) (Some 2) [3; 4] in
  let p := add 2 "active" (add 1 "active" (add 1 "round" (Page ∅ "hidden"))) in
  (∀ c e, marked c (MobileMenu.opened w (MobileMenu.opened w p)) e ↔ marked c p e)
  ∧ overflow (MobileMenu.opened w (MobileMenu.opened w p))
    = (if MobileMenu.is_open w p then "hidden" else "").
Proof.
  apply (mobile_menu_toggle_twice_restores 1 2 [3; 4]). lia.
Defined.
